(** * The transaction manager of [transaction.py] and the cache of
      [cachemanager.py]

    A shallow embedding of [TransactionManager] (begin / commit / rollback
    with compensating actions, the audit log and its retention pruning, and
    the [transaction] context manager) and of [CacheManager] (a dict of
    timestamped values with a time to live), followed by the properties of
    the design document that concern the manager and by further properties
    of both classes. *)

From Stdlib Require Import List ZArith String Bool Lia DecimalString.
Import ListNotations.

Local Open Scope Z_scope.

(** ** Python lists used as stacks *)

Module PyList.

(** [l.pop()] on a non-empty list: the remaining list and the removed last
    element; [None] stands for the empty list, which the callers test for
    with [if l:] before they pop or index. *)
Fixpoint pop {A : Type} (l : list A) : option (list A * A) :=
  match l with
  | [] => None
  | x :: tl =>
      match pop tl with
      | None => Some ([], x)
      | Some (init, y) => Some (x :: init, y)
      end
  end.

End PyList.

Import PyList.

(** ** Python strings *)

Module PyStr.

(** [sub in s] for two [str]. *)
Fixpoint contains (sub s : string) : bool :=
  prefix sub s ||
  match s with
  | EmptyString => false
  | String _ s' => contains sub s'
  end.

(** [%d] of an [int]. *)
Definition decimal (z : Z) : string := NilZero.string_of_int (Z.to_int z).

End PyStr.

(** ** Exceptions and instants *)

(** The classes of the exceptions that occur.  [TransactionErrorT] is the
    class [TransactionError] the module declares and [ExceptionT] any
    other class under [Exception] that a caller's code raises; the last
    three are the classes of the interpreter that derive from
    [BaseException] and not from [Exception]. *)
Inductive exc_type : Type :=
| ExceptionT
| IndexErrorT
| OverflowErrorT
| TransactionErrorT
| KeyboardInterruptT
| SystemExitT
| GeneratorExitT.

(** An exception: its class and [str(e)]. *)
Record exn : Type := mk_exn { exc_class : exc_type; exc_str : string }.

(** [isinstance(e, Exception)]: what a clause [except Exception] catches. *)
Definition is_exception (e : exn) : bool :=
  match exc_class e with
  | KeyboardInterruptT | SystemExitT | GeneratorExitT => false
  | _ => true
  end.

Definition TransactionError (msg : string) : exn := mk_exn TransactionErrorT msg.
Definition IndexError (msg : string) : exn := mk_exn IndexErrorT msg.
Definition OverflowError (msg : string) : exn := mk_exn OverflowErrorT msg.

(** A naive [datetime]: microseconds since [datetime.min]
    (0001-01-01T00:00:00).  The representable instants end with
    [datetime.max] (9999-12-31T23:59:59.999999), whose date has ordinal
    3652059. *)
Definition datetime : Type := Z.

Definition usec_per_day : Z := 86400 * 1000000.
Definition max_ordinal : Z := 3652059.
Definition max_timedelta_days : Z := 999999999.

Definition representable (t : Z) : bool :=
  (0 <=? t) && (t <? max_ordinal * usec_per_day).

(** [timedelta(days=n)] in microseconds.  More than 999999999 days in
    magnitude raise [OverflowError], with the interpreter's text for a
    number of days that fits a C [int] and its other text beyond. *)
Definition timedelta_of_days (n : Z) : exn + Z :=
  if Z.abs n <=? max_timedelta_days then inr (n * usec_per_day)
  else if (- 2 ^ 31 <=? n) && (n <? 2 ^ 31) then
    inl (OverflowError
           ("days=" ++ PyStr.decimal n ++
            "; must have magnitude <= 999999999"))
  else inl (OverflowError "Python int too large to convert to C int").

(** [t - delta] for a [datetime] and a [timedelta]: a result outside
    [datetime.min .. datetime.max] raises [OverflowError]. *)
Definition datetime_sub (t : datetime) (delta : Z) : exn + datetime :=
  if representable (t - delta) then inr (t - delta)
  else inl (OverflowError "date value out of range").

(** The value of [now - timedelta(days=n)] when neither step raises, and
    [None] when one of them raises [OverflowError]. *)
Definition sub_days (now : datetime) (n : Z) : option datetime :=
  if (Z.abs n <=? max_timedelta_days) && representable (now - n * usec_per_day)
  then Some (now - n * usec_per_day)
  else None.

(** ** The manager *)

Section Manager.

(** [World] is whatever the compensating actions and the caller's code act
    on outside the manager; [Details] is the type of the [details] payload
    of an audit entry. *)
Context {World Details : Type}.

Inductive Status : Type := in_progress | committed | rolled_back.

(** An element of a log entry's ['actions'] list: the dict with keys
    ['type'], ['details'] (absent for a registration) and ['timestamp']. *)
Record Audit : Type := mk_audit {
  a_type : string;
  a_details : option Details;
  a_timestamp : datetime
}.

(** An element of [transaction_log]: the dict with keys ['start_time'],
    ['actions'], ['status'] and, once set, ['end_time']. *)
Record LogEntry : Type := mk_entry {
  start_time : datetime;
  actions : list Audit;
  status : Status;
  end_time : option datetime
}.

(** A compensating action: a zero-argument callable.  It acts on the world
    and either returns or raises; it may read the manager's log (a closure
    over the manager calling [get_transaction_log]), but it is taken not to
    call back into the manager it is registered with. *)
Definition Callable : Type := list LogEntry -> World -> World * option exn.

Record TransactionManager : Type := mk_tm {
  transaction_stack : list (list Callable);
  rollback_actions : list Callable;
  transaction_log : list LogEntry
}.

Definition init : TransactionManager :=
  {| transaction_stack := []; rollback_actions := []; transaction_log := [] |}.

Definition set_stack (m : TransactionManager) (s : list (list Callable)) :=
  {| transaction_stack := s;
     rollback_actions := rollback_actions m;
     transaction_log := transaction_log m |}.

Definition set_log (m : TransactionManager) (l : list LogEntry) :=
  {| transaction_stack := transaction_stack m;
     rollback_actions := rollback_actions m;
     transaction_log := l |}.

(** [entry['actions'].append(a)] *)
Definition append_audit (e : LogEntry) (a : Audit) : LogEntry :=
  {| start_time := start_time e;
     actions := actions e ++ [a];
     status := status e;
     end_time := end_time e |}.

(** [entry['status'] = s; entry['end_time'] = now] *)
Definition close_entry (s : Status) (now : datetime) (e : LogEntry) : LogEntry :=
  {| start_time := start_time e;
     actions := actions e;
     status := s;
     end_time := Some now |}.

(** What a call leaves behind: the manager, the world, the compensating
    actions that were invoked during the call (in order of invocation) and
    the exception that escaped, if any. *)
Record Outcome : Type := mk_outcome {
  o_tm : TransactionManager;
  o_world : World;
  o_invoked : list Callable;
  o_raised : option exn
}.

Definition returns (m : TransactionManager) (w : World) : Outcome :=
  {| o_tm := m; o_world := w; o_invoked := []; o_raised := None |}.

Definition begin_transaction (now : datetime) (m : TransactionManager)
  : TransactionManager :=
  {| transaction_stack := transaction_stack m ++ [[]];
     rollback_actions := rollback_actions m;
     transaction_log :=
       transaction_log m ++
       [{| start_time := now; actions := []; status := in_progress;
           end_time := None |}] |}.

(** The action is appended to the top frame before the log is indexed, so
    the [IndexError] of [transaction_log[-1]] on an empty log leaves the
    action registered. *)
Definition add_rollback_action (action : Callable) (now : datetime)
  (m : TransactionManager) : TransactionManager * option exn :=
  match pop (transaction_stack m) with
  | None => (m, None)
  | Some (below, top) =>
      let m1 := set_stack m (below ++ [top ++ [action]]) in
      match pop (transaction_log m1) with
      | None => (m1, Some (IndexError "list index out of range"))
      | Some (older, e) =>
          (set_log m1
             (older ++ [append_audit e (mk_audit "rollback_action" None now)]),
           None)
      end
  end.

Definition add_action (action_type : string) (details : Details)
  (now : datetime) (m : TransactionManager) : TransactionManager :=
  match pop (transaction_log m) with
  | None => m
  | Some (older, e) =>
      set_log m
        (older ++ [append_audit e (mk_audit action_type (Some details) now)])
  end.

Definition commit (now : datetime) (m : TransactionManager)
  : TransactionManager :=
  match pop (transaction_stack m) with
  | None => m
  | Some (below, _) =>
      let m1 := set_stack m below in
      match pop (transaction_log m1) with
      | None => m1
      | Some (older, e) => set_log m1 (older ++ [close_entry committed now e])
      end
  end.

(** The loop [for action in reversed(actions): try: action() except
    Exception as e: raise TransactionError(...)], over the already reversed
    list.  An exception that is not an instance of [Exception] is not
    caught by the clause and leaves the loop as it is. *)
Fixpoint run_actions (todo : list Callable) (m : TransactionManager)
  (w : World) : Outcome :=
  match todo with
  | [] => returns m w
  | action :: rest =>
      match action (transaction_log m) w with
      | (w', Some e) =>
          {| o_tm := m; o_world := w'; o_invoked := [action];
             o_raised :=
               Some (if is_exception e
                     then TransactionError ("Rollback failed: " ++ exc_str e)
                     else e) |}
      | (w', None) =>
          let out := run_actions rest m w' in
          {| o_tm := o_tm out; o_world := o_world out;
             o_invoked := action :: o_invoked out;
             o_raised := o_raised out |}
      end
  end.

Definition rollback (now : datetime) (m : TransactionManager) (w : World)
  : Outcome :=
  match pop (transaction_stack m) with
  | None => returns m w
  | Some (below, actions) =>
      let m1 := set_stack m below in
      let m2 :=
        match pop (transaction_log m1) with
        | None => m1
        | Some (older, e) =>
            set_log m1 (older ++ [close_entry rolled_back now e])
        end in
      run_actions (rev actions) m2 w
  end.

Definition get_transaction_log (m : TransactionManager) : list LogEntry :=
  transaction_log m.

(** The context manager [transaction()] around the body [work] of a [with]
    statement; [t_begin] is the instant read by [begin_transaction],
    [t_end] the one read by [commit] or [rollback].  An exception of the
    body that is not an instance of [Exception] is not caught by the
    clause [except Exception]: it leaves the block as the body raised it,
    with neither [commit] nor [rollback]. *)
Definition transaction (t_begin t_end : datetime)
  (work : TransactionManager -> World -> Outcome)
  (m : TransactionManager) (w : World) : Outcome :=
  let body := work (begin_transaction t_begin m) w in
  match o_raised body with
  | None =>
      {| o_tm := commit t_end (o_tm body); o_world := o_world body;
         o_invoked := o_invoked body; o_raised := None |}
  | Some e =>
      if is_exception e then
        let rb := rollback t_end (o_tm body) (o_world body) in
        {| o_tm := o_tm rb; o_world := o_world rb;
           o_invoked := o_invoked body ++ o_invoked rb;
           o_raised :=
             match o_raised rb with
             | Some e' => Some e'
             | None =>
                 Some (TransactionError ("Transaction failed: " ++ exc_str e))
             end |}
      else body
  end.

(** [timedelta(days=older_than_days)] is built first and then subtracted
    from [datetime.now()]; either step may raise [OverflowError], before
    the log is touched. *)
Definition clear_logs (older_than_days : Z) (now : datetime)
  (m : TransactionManager) : TransactionManager * option exn :=
  match timedelta_of_days older_than_days with
  | inl e => (m, Some e)
  | inr delta =>
      match datetime_sub now delta with
      | inl e => (m, Some e)
      | inr cutoff_date =>
          (set_log m
             (filter (fun log => cutoff_date <? start_time log)
                (transaction_log m)),
           None)
      end
  end.

(** ** Sequences of calls *)

Inductive op : Type :=
| Begin (now : datetime)
| AddRollbackAction (action : Callable) (now : datetime)
| AddAction (action_type : string) (details : Details) (now : datetime)
| Commit (now : datetime)
| Rollback (now : datetime)
| ClearLogs (older_than_days : Z) (now : datetime).

Definition of_pair (w : World) (r : TransactionManager * option exn)
  : Outcome :=
  {| o_tm := fst r; o_world := w; o_invoked := []; o_raised := snd r |}.

Definition step (o : op) (m : TransactionManager) (w : World) : Outcome :=
  match o with
  | Begin now => returns (begin_transaction now m) w
  | AddRollbackAction a now => of_pair w (add_rollback_action a now m)
  | AddAction ty d now => returns (add_action ty d now m) w
  | Commit now => returns (commit now m) w
  | Rollback now => rollback now m w
  | ClearLogs n now => of_pair w (clear_logs n now m)
  end.

(** A straight-line caller: the calls one after the other, stopping at the
    first exception that escapes. *)
Fixpoint run (ops : list op) (m : TransactionManager) (w : World) : Outcome :=
  match ops with
  | [] => returns m w
  | o :: rest =>
      let out := step o m w in
      match o_raised out with
      | Some _ => out
      | None =>
          let out' := run rest (o_tm out) (o_world out) in
          {| o_tm := o_tm out'; o_world := o_world out';
             o_invoked := o_invoked out ++ o_invoked out';
             o_raised := o_raised out' |}
      end
  end.

(** ** Notions used in the statements *)

(** The message of a failure raised by the loop of [rollback]. *)
Definition rollback_failure (e : exn) : Prop :=
  exc_class e = TransactionErrorT /\
  exists cause : string, exc_str e = ("Rollback failed: " ++ cause)%string.

(** The manager [rollback now m] leaves behind (lemma [rollback_tm]); it
    does not depend on the actions: the frame is popped and the last log
    entry closed before the loop. *)
Definition after_pop (now : datetime) (m : TransactionManager)
  : TransactionManager :=
  match pop (transaction_stack m) with
  | None => m
  | Some (below, _) =>
      match pop (transaction_log m) with
      | None => set_stack m below
      | Some (older, e) =>
          set_log (set_stack m below) (older ++ [close_entry rolled_back now e])
      end
  end.

(** The caller registers the actions of [regs] one after the other, each
    with the instant its call reads. *)
Definition register (regs : list (Callable * datetime))
  (m : TransactionManager) : TransactionManager :=
  fold_left (fun m r => fst (add_rollback_action (fst r) (snd r) m)) regs m.

(** A call that only records in the open frame. *)
Definition registers_only (o : op) : bool :=
  match o with
  | AddRollbackAction _ _ | AddAction _ _ _ => true
  | _ => false
  end.

End Manager.

(** ** A concrete scenario

    The world is a shared ordered output sequence that the compensating
    actions append their names to. *)

Module Scenario.

Definition Output : Type := list string.
Definition Payload : Type := list (string * string).

Definition TM : Type := @TransactionManager Output Payload.
Definition Action : Type := @Callable Output Payload.

Definition say (name : string) : Action :=
  fun _ out => (out ++ [name], None).

Definition fail (name msg : string) : Action :=
  fun _ out => (out ++ [name], Some (mk_exn ExceptionT msg)).

(** Appends what it reads in the log's last entry when it runs. *)
Definition probe : Action :=
  fun log out =>
    match pop log with
    | Some (_, e) =>
        match status e, end_time e with
        | rolled_back, Some _ => (out ++ ["closed"%string], None)
        | _, _ => (out ++ ["open"%string], None)
        end
    | None => (out ++ ["no entry"%string], None)
    end.

Definition A : Action := say "A".
Definition B : Action := say "B".
Definition C : Action := say "C".
Definition B_raising : Action := fail "B" "boom".

(** A compensation that is interrupted from the keyboard while it runs. *)
Definition B_interrupted : Action :=
  fun _ out => (out ++ ["B"%string], Some (mk_exn KeyboardInterruptT "")).

(** 2021-07-30T00:00:00 and the days around it. *)
Definition t0 : datetime := 738000 * usec_per_day.
Definition days_after (n : Z) : datetime := t0 + n * usec_per_day.

Definition fresh : TM := init.

(** The body of a [with] block that registers a compensation and then raises. *)
Definition failing_work (comp : Action) (msg : string)
  (m : TM) (out : Output) : Outcome :=
  {| o_tm := fst (add_rollback_action comp (days_after 1) m);
     o_world := out ++ ["work"%string];
     o_invoked := [];
     o_raised := Some (mk_exn ExceptionT msg) |}.

(** The body of a [with] block that registers a compensation and is then
    interrupted from the keyboard. *)
Definition interrupted_work (comp : Action) (m : TM) (out : Output)
  : Outcome :=
  {| o_tm := fst (add_rollback_action comp (days_after 1) m);
     o_world := out ++ ["work"%string];
     o_invoked := [];
     o_raised := Some (mk_exn KeyboardInterruptT "") |}.

End Scenario.

(** ** Further notions about the manager *)

Section Observations.

Context {World Details : Type}.

(** The log entry's invariant: the end time is set exactly when the entry
    is no longer in progress. *)
Definition closed_iff_ended (e : @LogEntry Details) : Prop :=
  status e = in_progress <-> end_time e = None.

(** The actions a sequence of calls registers, in order. *)
Definition registered (ops : list (@op World Details))
  : list (@Callable World Details) :=
  flat_map
    (fun o => match o with AddRollbackAction a _ => [a] | _ => [] end) ops.

(** The audit entries a sequence of calls writes, in order. *)
Definition audited (ops : list (@op World Details)) : list (@Audit Details) :=
  flat_map
    (fun o =>
       match o with
       | AddRollbackAction _ t => [mk_audit "rollback_action" None t]
       | AddAction ty d t => [mk_audit ty (Some d) t]
       | _ => []
       end) ops.

(** [entry['actions'].extend(l)] *)
Definition extend_audit (e : @LogEntry Details) (l : list Audit) : LogEntry :=
  {| start_time := start_time e;
     actions := actions e ++ l;
     status := status e;
     end_time := end_time e |}.

Definition closes_or_registers (o : @op World Details) : bool :=
  match o with
  | Commit _ | Rollback _ | AddRollbackAction _ _ => true
  | _ => false
  end.

(** The depth of the stack after a call, from the depth before it. *)
Definition depth_after (o : @op World Details) (d : nat) : nat :=
  match o with
  | Begin _ => S d
  | Commit _ | Rollback _ => Nat.pred d
  | _ => d
  end.

(** The start times of the log after a call, from those before it. *)
Definition start_times_after (o : @op World Details) (ts : list datetime)
  : list datetime :=
  match o with
  | Begin now => ts ++ [now]
  | ClearLogs n now =>
      match sub_days now n with
      | Some cutoff_date => filter (fun t => cutoff_date <? t) ts
      | None => ts
      end
  | _ => ts
  end.

(** The actions still held by the open frames. *)
Definition pending (m : @TransactionManager World Details) : list Callable :=
  List.concat (transaction_stack m).

(** No action of the list raises: each returns on the world that the ones
    before it left. *)
Fixpoint return_in_sequence (acts : list (@Callable World Details))
  (log : list LogEntry) (w : World) : Prop :=
  match acts with
  | [] => True
  | a :: rest =>
      snd (a log w) = None /\ return_in_sequence rest log (fst (a log w))
  end.

(** The actions of the list up to and including the first that raises, each
    run on the world that the ones before it left. *)
Fixpoint until_first_raise (acts : list (@Callable World Details))
  (log : list LogEntry) (w : World) : list Callable :=
  match acts with
  | [] => []
  | a :: rest =>
      match snd (a log w) with
      | Some _ => [a]
      | None => a :: until_first_raise rest log (fst (a log w))
      end
  end.

(** The effect on the world of actions that all return, one after the
    other. *)
Definition compose (acts : list (@Callable World Details))
  (log : list LogEntry) (w : World) : World :=
  fold_left (fun w a => fst (a log w)) acts w.

End Observations.

(** ** The cache of [cachemanager.py] *)

(** [timedelta(seconds=s)] in microseconds.  The days of the normalised
    value are [s // 86400]; more than 999999999 of them in magnitude raise
    [OverflowError], with the interpreter's text for a number of days
    that fits a C [int] and its other text beyond. *)
Definition timedelta_of_seconds (s : Z) : exn + Z :=
  let days := s / 86400 in
  if Z.abs days <=? max_timedelta_days then inr (s * 1000000)
  else if (- 2 ^ 31 <=? days) && (days <? 2 ^ 31) then
    inl (OverflowError
           ("days=" ++ PyStr.decimal days ++
            "; must have magnitude <= 999999999"))
  else inl (OverflowError "Python int too large to convert to C int").

Section Cache.

(** [Data] is the type of the cached values. *)
Context {Data : Type}.

(** A value of [self.cache]: the dict with keys ['data'] and
    ['timestamp']. *)
Record CacheEntry : Type := mk_cache_entry {
  data : Data;
  timestamp : datetime
}.

(** A [dict] with [str] keys, as its items in insertion order; a key
    occurs once. *)
Definition dict : Type := list (string * CacheEntry).

(** [d.get(key)]: the value under [key], if any. *)
Fixpoint dict_lookup (key : string) (d : dict) : option CacheEntry :=
  match d with
  | [] => None
  | (k, x) :: tl => if String.eqb k key then Some x else dict_lookup key tl
  end.

(** [d[key] = v]: an existing key keeps its place. *)
Fixpoint dict_set (key : string) (v : CacheEntry) (d : dict) : dict :=
  match d with
  | [] => [(key, v)]
  | (k, x) :: tl =>
      if String.eqb k key then (k, v) :: tl else (k, x) :: dict_set key v tl
  end.

(** [del d[key]] for a key of [d]. *)
Definition dict_del (key : string) (d : dict) : dict :=
  filter (fun item => negb (String.eqb (fst item) key)) d.

Record CacheManager : Type := mk_cache {
  cache : dict;
  ttl : Z
}.

(** [CacheManager(ttl)] *)
Definition cache_init (ttl : Z) : CacheManager := {| cache := []; ttl := ttl |}.

Definition with_cache (c : CacheManager) (d : dict) : CacheManager :=
  {| cache := d; ttl := ttl c |}.

(** [now - entry['timestamp'] > timedelta(seconds=self.ttl)], given the
    timedelta. *)
Definition expired (now : datetime) (limit : Z) (entry : CacheEntry) : bool :=
  limit <? now - timestamp entry.

Definition get (key : string) (now : datetime) (c : CacheManager)
  : CacheManager * (exn + option Data) :=
  match dict_lookup key (cache c) with
  | None => (c, inr None)
  | Some cache_entry =>
      match timedelta_of_seconds (ttl c) with
      | inl e => (c, inl e)
      | inr limit =>
          if expired now limit cache_entry
          then (with_cache c (dict_del key (cache c)), inr None)
          else (c, inr (Some (data cache_entry)))
      end
  end.

Definition set (key : string) (value : Data) (now : datetime)
  (c : CacheManager) : CacheManager :=
  with_cache c
    (dict_set key {| data := value; timestamp := now |} (cache c)).

(** The comprehension builds the timedelta once per item, so an empty
    cache never raises. *)
Definition clear_expired (now : datetime) (c : CacheManager)
  : CacheManager * option exn :=
  match cache c with
  | [] => (c, None)
  | _ :: _ =>
      match timedelta_of_seconds (ttl c) with
      | inl e => (c, Some e)
      | inr limit =>
          let expired_keys :=
            map fst (filter (fun item => expired now limit (snd item))
                       (cache c)) in
          (with_cache c
             (fold_left (fun d key => dict_del key d) expired_keys (cache c)),
           None)
      end
  end.

Definition clear_patient_cache (patient_id : string) (c : CacheManager)
  : CacheManager :=
  let patient_keys :=
    filter (fun key => PyStr.contains patient_id key) (map fst (cache c)) in
  with_cache c (fold_left (fun d key => dict_del key d) patient_keys (cache c)).

(** The keys of a dict are distinct. *)
Definition well_formed (c : CacheManager) : Prop := NoDup (map fst (cache c)).

End Cache.

(** ** Facts about [pop] *)

Section PopFacts.

Context {A : Type}.

Lemma pop_snoc (l : list A) (x : A) : pop (l ++ [x]) = Some (l, x).
Proof.
  induction l as [|y l IH]; cbn; [reflexivity|]. now rewrite IH.
Qed.

Lemma pop_None (l : list A) : pop l = None -> l = [].
Proof.
  destruct l as [|x l]; cbn; [reflexivity|].
  destruct (pop l) as [[? ?]|]; discriminate.
Qed.

Lemma pop_Some (l init : list A) (x : A) :
  pop l = Some (init, x) -> l = init ++ [x].
Proof.
  revert init; induction l as [|y l IH]; cbn; intros init H; [discriminate|].
  destruct (pop l) as [[i z]|] eqn:E.
  - injection H as <- <-. cbn. f_equal. now apply IH.
  - injection H as <- <-. now rewrite (pop_None l E).
Qed.

End PopFacts.

(** ** Properties of the manager *)

Section Properties.

Context {World Details : Type}.

Abbreviation TM := (@TransactionManager World Details).
Abbreviation Action := (@Callable World Details).
Abbreviation Op := (@op World Details).

(** *** The compensation loop *)

Section Compensation.

Lemma run_actions_tm (todo : list Action) (m : TM) (w : World) :
  o_tm (run_actions todo m w) = m.
Proof.
  revert w; induction todo as [|a todo IH]; intros w; cbn; [reflexivity|].
  destruct (a (transaction_log m) w) as [w' [e|]]; cbn; [reflexivity|apply IH].
Qed.

(** The loop invokes an initial segment of its list, in the list's order. *)
Lemma run_actions_prefix (todo : list Action) (m : TM) (w : World) :
  exists k : nat, o_invoked (run_actions todo m w) = firstn k todo.
Proof.
  revert w; induction todo as [|a todo IH]; intros w; cbn.
  - now exists 0%nat.
  - destruct (a (transaction_log m) w) as [w' [e|]]; cbn.
    + now exists 1%nat.
    + destruct (IH w') as [k Hk]. exists (S k). cbn. now rewrite Hk.
Qed.

(** When no exception escapes, the whole list was invoked. *)
Lemma run_actions_returns (todo : list Action) (m : TM) (w : World) :
  o_raised (run_actions todo m w) = None ->
  o_invoked (run_actions todo m w) = todo.
Proof.
  revert w; induction todo as [|a todo IH]; intros w; cbn; [reflexivity|].
  destruct (a (transaction_log m) w) as [w' [e|]]; cbn; [discriminate|].
  intros H. now rewrite IH.
Qed.

(** A segment that returns is followed by the rest of the list. *)
Lemma run_actions_app (l1 l2 : list Action) (m : TM) (w : World) :
  o_raised (run_actions l1 m w) = None ->
  let first := run_actions l1 m w in
  let second := run_actions l2 m (o_world first) in
  run_actions (l1 ++ l2) m w =
  {| o_tm := m; o_world := o_world second;
     o_invoked := l1 ++ o_invoked second; o_raised := o_raised second |}.
Proof.
  revert w; induction l1 as [|a l1 IH]; intros w; cbn.
  - intros _. pose proof (run_actions_tm l2 m w) as Htm.
    destruct (run_actions l2 m w); cbn in *. now subst.
  - destruct (a (transaction_log m) w) as [w' [e|]]; cbn; [discriminate|].
    intros H. rewrite (IH w' H). reflexivity.
Qed.

Lemma run_actions_raised (todo : list Action) (m : TM) (w : World) (e : exn) :
  o_raised (run_actions todo m w) = Some e ->
  is_exception e = true -> rollback_failure e.
Proof.
  revert w; induction todo as [|a todo IH]; intros w; cbn; [discriminate|].
  destruct (a (transaction_log m) w) as [w' [c|]]; cbn.
  - destruct (is_exception c) eqn:Hc; intros [= <-].
    + intros _. split; [reflexivity|]. now exists (exc_str c).
    + congruence.
  - apply IH.
Qed.

(** What the loop invokes is fixed by the actions themselves: the ones up
    to and including the first that raises. *)
Lemma run_actions_invoked (todo : list Action) (m : TM) (w : World) :
  o_invoked (run_actions todo m w) =
  until_first_raise todo (transaction_log m) w.
Proof.
  revert w; induction todo as [|a todo IH]; intros w; cbn; [reflexivity|].
  destruct (a (transaction_log m) w) as [w' [e|]]; cbn; [reflexivity|].
  now rewrite IH.
Qed.

(** When no action raises, the loop returns, having invoked them all. *)
Lemma run_actions_all_return (todo : list Action) (m : TM) (w : World) :
  return_in_sequence todo (transaction_log m) w ->
  o_raised (run_actions todo m w) = None /\
  o_invoked (run_actions todo m w) = todo /\
  o_world (run_actions todo m w) = compose todo (transaction_log m) w.
Proof.
  revert w; induction todo as [|a todo IH]; intros w; cbn.
  - intros _. repeat split.
  - unfold compose. cbn.
    destruct (a (transaction_log m) w) as [w' [e|]]; cbn;
      intros [Ha Hrest]; [discriminate|].
    destruct (IH w' Hrest) as (Hr & Hi & Hw).
    repeat split; [assumption | now rewrite Hi | exact Hw].
Qed.

Lemma rollback_unfold (now : datetime) (m : TM) (w : World)
  (below : list (list Action)) (acts : list Action) :
  transaction_stack m = below ++ [acts] ->
  rollback now m w = run_actions (rev acts) (after_pop now m) w.
Proof.
  intros Hs. unfold rollback, after_pop. rewrite Hs, pop_snoc. cbn.
  now destruct (pop (transaction_log m)) as [[older e]|].
Qed.

Lemma rollback_tm (now : datetime) (m : TM) (w : World) :
  o_tm (rollback now m w) = after_pop now m.
Proof.
  unfold rollback, after_pop.
  destruct (pop (transaction_stack m)) as [[below acts]|]; [|reflexivity].
  rewrite run_actions_tm. cbn.
  now destruct (pop (transaction_log m)) as [[older e]|].
Qed.

Lemma rollback_raised (now : datetime) (m : TM) (w : World) (e : exn) :
  o_raised (rollback now m w) = Some e ->
  is_exception e = true -> rollback_failure e.
Proof.
  unfold rollback.
  destruct (pop (transaction_stack m)) as [[below acts]|]; [|discriminate].
  apply run_actions_raised.
Qed.

(** Registration appends to the top frame, also when the log is empty and
    the call ends in [IndexError]. *)
Lemma add_rollback_action_stack (a : Action) (now : datetime) (m : TM)
  (below : list (list Action)) (frame : list Action) :
  transaction_stack m = below ++ [frame] ->
  transaction_stack (fst (add_rollback_action a now m)) =
  below ++ [frame ++ [a]].
Proof.
  intros Hs. unfold add_rollback_action. rewrite Hs, pop_snoc. cbn.
  now destruct (pop (transaction_log m)) as [[older e]|].
Qed.

Lemma register_stack (regs : list (Action * datetime)) (m : TM)
  (below : list (list Action)) (frame : list Action) :
  transaction_stack m = below ++ [frame] ->
  transaction_stack (register regs m) = below ++ [frame ++ map fst regs].
Proof.
  unfold register.
  revert m frame; induction regs as [|[a t] regs IH]; intros m frame Hs; cbn.
  - now rewrite app_nil_r.
  - rewrite (IH _ (frame ++ [a])).
    + now rewrite <- app_assoc.
    + now apply add_rollback_action_stack.
Qed.

(** C2, with the halt at the first failure.  The compensating actions of
    a frame run in reverse registration order, the last registered first:
    [rollback] invokes them one after the other up to and including the
    first that raises, and when none of them raises it returns, having
    invoked exactly the registered actions, each once. *)
Theorem rollback_reverse_registration_order
  (m : TM) (below : list (list Action)) (frame : list Action)
  (regs : list (Action * datetime)) (now : datetime) (w : World) :
  transaction_stack m = below ++ [frame] ->
  let acts := frame ++ map fst regs in
  let log := transaction_log (after_pop now (register regs m)) in
  let out := rollback now (register regs m) w in
  o_invoked out = until_first_raise (rev acts) log w /\
  (return_in_sequence (rev acts) log w ->
   o_raised out = None /\
   o_invoked out = rev acts /\
   o_world out = compose (rev acts) log w).
Proof.
  intros Hs acts log out. subst out log acts.
  rewrite (rollback_unfold _ _ _ _ _ (register_stack regs m below frame Hs)).
  split; [apply run_actions_invoked | apply run_actions_all_return].
Qed.

(** C3, for either kind of exception.  When a compensating action raises,
    [rollback] stops there: the actions registered after it have run, it
    has run, and the actions registered before it are not invoked.  An
    instance of [Exception] is replaced by a [TransactionError] whose
    message is "Rollback failed: " followed by the cause's text; any
    other exception escapes as it was raised. *)
Theorem rollback_halts_at_first_failure
  (m : TM) (below : list (list Action)) (earlier later : list Action)
  (failing : Action) (now : datetime) (w w' : World) (e : exn) :
  transaction_stack m = below ++ [earlier ++ failing :: later] ->
  let m' := after_pop now m in
  let log := transaction_log m' in
  return_in_sequence (rev later) log w ->
  failing log (compose (rev later) log w) = (w', Some e) ->
  rollback now m w =
  {| o_tm := m'; o_world := w';
     o_invoked := rev later ++ [failing];
     o_raised :=
       Some (if is_exception e
             then TransactionError ("Rollback failed: " ++ exc_str e)
             else e) |}.
Proof.
  intros Hs m' log Hlater Hfail. subst log.
  rewrite (rollback_unfold _ _ _ _ _ Hs). fold m'.
  destruct (run_actions_all_return _ _ _ Hlater) as (Hr & _ & Hw).
  rewrite rev_app_distr. cbn [rev]. rewrite <- app_assoc.
  rewrite (run_actions_app _ _ _ _ Hr). cbn. rewrite Hw.
  now rewrite Hfail.
Qed.

End Compensation.

(** *** The context manager *)

Section Wrapper.

(** C4, for either kind of exception.  When the body of the [with] block
    raises an instance [e] of [Exception], the context manager performs
    [rollback] on what the body left behind and then raises: the
    exception of [rollback] itself when a compensation raised, and
    otherwise a [TransactionError] whose message is "Transaction
    failed: " followed by the text of [e].  When the body raises any
    other exception, the block ends as the body did, with neither
    [commit] nor [rollback]. *)
Theorem transaction_rolls_back_then_raises
  (t_begin t_end : datetime) (work : TM -> World -> Outcome)
  (m : TM) (w : World) (e : exn) :
  o_raised (work (begin_transaction t_begin m) w) = Some e ->
  let body := work (begin_transaction t_begin m) w in
  let rb := rollback t_end (o_tm body) (o_world body) in
  let out := transaction t_begin t_end work m w in
  (is_exception e = true ->
   o_tm out = o_tm rb /\
   o_world out = o_world rb /\
   o_invoked out = o_invoked body ++ o_invoked rb /\
   ((o_raised rb = None /\
     o_raised out =
     Some (TransactionError ("Transaction failed: " ++ exc_str e))) \/
    (exists e' : exn,
       o_raised rb = Some e' /\
       (rollback_failure e' \/ is_exception e' = false) /\
       o_raised out = Some e'))) /\
  (is_exception e = false -> out = body).
Proof.
  intros Hbody body rb out. subst out rb body. unfold transaction.
  rewrite Hbody. split; intros He; rewrite He; [|reflexivity]. cbn.
  repeat split.
  destruct (o_raised (rollback t_end _ _)) as [e'|] eqn:Hrb.
  - right. exists e'. repeat split; try reflexivity.
    destruct (is_exception e') eqn:He'; [left|now right].
    now apply (rollback_raised _ _ _ _ Hrb).
  - left. now split.
Qed.

(** An instance of [Exception] that escapes the context manager is a
    [TransactionError], and its message starts with one of the two
    prefixes. *)
Lemma transaction_raised (t_begin t_end : datetime)
  (work : TM -> World -> Outcome) (m : TM) (w : World) (e : exn) :
  o_raised (transaction t_begin t_end work m w) = Some e ->
  is_exception e = true ->
  exc_class e = TransactionErrorT /\
  (rollback_failure e \/
   exists cause : string,
     exc_str e = ("Transaction failed: " ++ cause)%string).
Proof.
  unfold transaction.
  destruct (o_raised (work (begin_transaction t_begin m) w)) as [c|] eqn:Hb;
    cbn; [|discriminate].
  destruct (is_exception c) eqn:Hc.
  - cbn. destruct (o_raised (rollback t_end _ _)) as [e'|] eqn:Hrb.
    + intros [= <-] He. pose proof (rollback_raised _ _ _ _ Hrb He) as Hf.
      split; [apply Hf | now left].
    + intros [= <-] _. split; [reflexivity|]. right. now exists (exc_str c).
  - rewrite Hb. intros [= <-]. congruence.
Qed.

(** C10, for instances of [Exception].  A failure raised by [rollback]
    because a compensation raised and a failure raised by the context
    manager, when they are instances of [Exception], are both instances of
    the one class [TransactionError]: their classes are equal, and only
    the text tells them apart ("Rollback failed: ..." for the former; for
    the latter that same text when its rollback failed, "Transaction
    failed: ..." otherwise, and the two texts are never equal). *)
Theorem rollback_and_wrapper_failures_share_class
  (now : datetime) (m : TM) (w : World) (e1 : exn)
  (t_begin t_end : datetime) (work : TM -> World -> Outcome)
  (m' : TM) (w' : World) (e2 : exn) :
  o_raised (rollback now m w) = Some e1 ->
  o_raised (transaction t_begin t_end work m' w') = Some e2 ->
  is_exception e1 = true ->
  is_exception e2 = true ->
  exc_class e1 = TransactionErrorT /\
  exc_class e2 = TransactionErrorT /\
  exc_class e1 = exc_class e2 /\
  (exists cause : string, exc_str e1 = ("Rollback failed: " ++ cause)%string) /\
  ((exists cause : string,
      exc_str e2 = ("Rollback failed: " ++ cause)%string) \/
   (exists cause : string,
      exc_str e2 = ("Transaction failed: " ++ cause)%string /\
      exc_str e2 <> exc_str e1)).
Proof.
  intros H1 H2 E1 E2.
  destruct (rollback_raised _ _ _ _ H1 E1) as [Hc1 [c1 Hs1]].
  destruct (transaction_raised _ _ _ _ _ _ H2 E2) as [Hc2 Hs2].
  repeat split; try assumption.
  - now rewrite Hc1, Hc2.
  - now exists c1.
  - destruct Hs2 as [[_ [c2 Hs2]]|[c2 Hs2]].
    + left. now exists c2.
    + right. exists c2. split; [assumption|].
      rewrite Hs1, Hs2. cbn. intros [=].
Qed.

End Wrapper.

(** *** Recording a rollback in the log *)

Section Recording.

(** Calls that only record leave the open frame on top of the stack and
    its entry last in the log, still open, and raise nothing. *)
Lemma run_registers_only (mid : list Op) :
  forallb registers_only mid = true ->
  forall (m : TM) (w : World) below frame older entry,
    transaction_stack m = below ++ [frame] ->
    transaction_log m = older ++ [entry] ->
    exists frame' entry',
      o_raised (run mid m w) = None /\
      o_world (run mid m w) = w /\
      o_invoked (run mid m w) = [] /\
      transaction_stack (o_tm (run mid m w)) = below ++ [frame'] /\
      transaction_log (o_tm (run mid m w)) = older ++ [entry'] /\
      start_time entry' = start_time entry /\
      status entry' = status entry /\
      end_time entry' = end_time entry.
Proof.
  induction mid as [|o mid IH]; intros Hall m w below frame older entry Hs Hl.
  - exists frame, entry. cbn. auto 10.
  - cbn in Hall. apply andb_prop in Hall as [Ho Hmid].
    destruct o as [t|a t|ty d t|t|t|n t]; try discriminate Ho; cbn.
    + unfold add_rollback_action. rewrite Hs, pop_snoc. cbn.
      rewrite Hl, pop_snoc. cbn.
      destruct (IH Hmid
                  (set_log (set_stack m (below ++ [frame ++ [a]]))
                     (older ++
                      [append_audit entry (mk_audit "rollback_action" None t)]))
                  w below (frame ++ [a]) older
                  (append_audit entry (mk_audit "rollback_action" None t))
                  eq_refl eq_refl)
        as (frame' & entry' & Hr & Hw & Hi & Hs' & Hl' & H1 & H2 & H3).
      exists frame', entry'. rewrite Hr, Hw, Hi, Hs', Hl'. auto 10.
    + unfold add_action. rewrite Hl, pop_snoc. cbn.
      destruct (IH Hmid
                  (set_log m
                     (older ++
                      [append_audit entry (mk_audit ty (Some d) t)]))
                  w below frame older
                  (append_audit entry (mk_audit ty (Some d) t))
                  Hs eq_refl)
        as (frame' & entry' & Hr & Hw & Hi & Hs' & Hl' & H1 & H2 & H3).
      exists frame', entry'. rewrite Hr, Hw, Hi, Hs', Hl'. auto 10.
Qed.

(** C8, for a frame whose entry is the last of the log.  For a frame
    that is begun and then only recorded in
    (no other frame begun or closed and no pruning in between), its entry
    is the last of the log when [rollback] is called, and [rollback] sets
    that entry's status to [rolled_back] and its end time before any
    compensation executes: the compensations run on the manager whose log
    already holds the closed entry, and that log is what the call leaves
    behind, whether or not a compensation raises. *)
Theorem rollback_records_before_compensating
  (m0 : TM) (w0 : World) (t_begin : datetime) (mid : list Op)
  (now : datetime) :
  forallb registers_only mid = true ->
  let s := run (Begin t_begin :: mid) m0 w0 in
  exists (frame : list Callable) (entry : LogEntry),
    o_raised s = None /\
    transaction_stack (o_tm s) = transaction_stack m0 ++ [frame] /\
    transaction_log (o_tm s) = transaction_log m0 ++ [entry] /\
    start_time entry = t_begin /\
    status entry = in_progress /\
    end_time entry = None /\
    let closed :=
      transaction_log m0 ++ [close_entry rolled_back now entry] in
    let out := rollback now (o_tm s) (o_world s) in
    transaction_log (o_tm out) = closed /\
    out =
    run_actions (rev frame)
      (set_log (set_stack (o_tm s) (transaction_stack m0)) closed)
      (o_world s).
Proof.
  intros Hall s.
  destruct (run_registers_only mid Hall (begin_transaction t_begin m0) w0
              (transaction_stack m0) [] (transaction_log m0)
              (mk_entry t_begin [] in_progress None) eq_refl eq_refl)
    as (frame & entry & Hr & Hw & Hi & Hs & Hl & H1 & H2 & H3).
  assert (Htm : o_tm s = o_tm (run mid (begin_transaction t_begin m0) w0))
    by reflexivity.
  assert (Hraised : o_raised s = None) by (subst s; cbn; exact Hr).
  exists frame, entry. rewrite Htm, Hs, Hl.
  repeat (split; [assumption || reflexivity|]).
  cbn zeta.
  assert (Hout :
    rollback now (o_tm s) (o_world s) =
    run_actions (rev frame)
      (set_log (set_stack (o_tm s) (transaction_stack m0))
         (transaction_log m0 ++ [close_entry rolled_back now entry]))
      (o_world s)).
  { rewrite (rollback_unfold now (o_tm s) (o_world s)
               (transaction_stack m0) frame) by (rewrite Htm; exact Hs).
    f_equal. unfold after_pop. rewrite Htm, Hs, Hl, !pop_snoc. reflexivity. }
  rewrite <- Htm. split; [|exact Hout].
  rewrite Hout, run_actions_tm. reflexivity.
Qed.

End Recording.

(** *** Pruning the log *)

Section Pruning.

(** When the cutoff is a representable instant the call keeps the entries
    that start after it. *)
Lemma clear_logs_cutoff (n : Z) (now cutoff : datetime) (m : TM) :
  sub_days now n = Some cutoff ->
  clear_logs n now m =
  (set_log m
     (filter (fun log => cutoff <? start_time log) (transaction_log m)),
   None).
Proof.
  unfold sub_days, clear_logs, timedelta_of_days, datetime_sub.
  destruct (Z.abs n <=? max_timedelta_days); cbn [andb];
    [|intros H; discriminate H].
  destruct (representable (now - n * usec_per_day));
    [|intros H; discriminate H].
  now intros [= <-].
Qed.

(** When the cutoff is not a representable instant the call raises
    [OverflowError] and changes nothing. *)
Lemma clear_logs_overflow (n : Z) (now : datetime) (m : TM) :
  sub_days now n = None ->
  exists e : exn,
    clear_logs n now m = (m, Some e) /\ exc_class e = OverflowErrorT.
Proof.
  unfold sub_days, clear_logs, timedelta_of_days, datetime_sub.
  destruct (Z.abs n <=? max_timedelta_days); cbn [andb].
  - destruct (representable (now - n * usec_per_day));
      [intros H; discriminate H|].
    intros _. eexists. split; reflexivity.
  - intros _. destruct ((- 2 ^ 31 <=? n) && (n <? 2 ^ 31));
      eexists; split; reflexivity.
Qed.

(** On a date out of the calendar the text is the interpreter's. *)
Lemma clear_logs_date_out_of_range (n : Z) (now : datetime) (m : TM) :
  Z.abs n <= max_timedelta_days ->
  representable (now - n * usec_per_day) = false ->
  clear_logs n now m = (m, Some (OverflowError "date value out of range")).
Proof.
  intros Hn Hr. unfold clear_logs, timedelta_of_days, datetime_sub.
  apply Z.leb_le in Hn. now rewrite Hn, Hr.
Qed.


End Pruning.

(** *** Where the log and the stack part ways

    The stack holds the frames' compensations and the log holds their
    entries, and every operation reaches the entry of "the current
    transaction" as [transaction_log[-1]].  The runs below are evaluated
    on a manager fresh from [__init__]. *)

Section Divergence.

(** C1. After [begin; begin; commit; commit] both frames are popped, but
    both commits have closed the entry of the second [begin]: it carries
    the end time of the second commit, and the entry of the first [begin]
    is still [in_progress] without an end time. *)
Theorem nested_commits_close_the_last_entry_twice
  (t1 t2 t3 t4 : datetime) (w : World) :
  run [Begin t1; Begin t2; Commit t3; Commit t4] (init : TM) w =
  returns
    {| transaction_stack := [];
       rollback_actions := [];
       transaction_log :=
         [ mk_entry t1 [] in_progress None;
           mk_entry t2 [] committed (Some t4) ] |}
    w.
Proof. reflexivity. Qed.

(** C5. After [begin; begin; commit] the entry of the inner frame is
    closed as [committed] at the commit's instant; the [rollback] of the
    outer frame that follows rewrites that closed entry to [rolled_back]
    with a new end time, and leaves the outer frame's own entry open. *)
Theorem rollback_rewrites_a_committed_entry
  (t1 t2 t3 t4 : datetime) (w : World) :
  run [Begin t1; Begin t2; Commit t3] (init : TM) w =
  returns
    {| transaction_stack := [[]];
       rollback_actions := [];
       transaction_log :=
         [ mk_entry t1 [] in_progress None;
           mk_entry t2 [] committed (Some t3) ] |}
    w /\
  run [Begin t1; Begin t2; Commit t3; Rollback t4] (init : TM) w =
  returns
    {| transaction_stack := [];
       rollback_actions := [];
       transaction_log :=
         [ mk_entry t1 [] in_progress None;
           mk_entry t2 [] rolled_back (Some t4) ] |}
    w.
Proof. split; reflexivity. Qed.

(** C6. After [begin; commit] the stack is empty and the log is not;
    [add_action] then is not inert: it appends an audit entry to the
    committed entry. *)
Theorem add_action_writes_with_an_empty_stack
  (t1 t2 t3 : datetime) (action_type : string) (details : Details)
  (w : World) :
  let m : TM := o_tm (run [Begin t1; Commit t2] init w) in
  transaction_stack m = [] /\
  transaction_log m = [ mk_entry t1 [] committed (Some t2) ] /\
  transaction_log (add_action action_type details t3 m) =
  [ mk_entry t1 [mk_audit action_type (Some details) t3] committed (Some t2) ].
Proof. repeat split. Qed.

(** C7. After [begin] and a [clear_logs] that prunes the entry of the open
    frame, [add_rollback_action] appends the action to the frame and then
    raises [IndexError]. *)
Theorem add_rollback_action_raises_on_a_pruned_log
  (action : Callable) (w : World) :
  let m : TM :=
    o_tm (run [Begin Scenario.t0; ClearLogs 0 Scenario.t0] init w) in
  transaction_stack m = [[]] /\
  transaction_log m = [] /\
  add_rollback_action action (Scenario.days_after 1) m =
  ({| transaction_stack := [[action]];
      rollback_actions := [];
      transaction_log := [] |},
   Some (IndexError "list index out of range")).
Proof. repeat split. Qed.

End Divergence.

End Properties.

(** ** The scenario, evaluated *)

Module ScenarioFacts.

Import Scenario.

Lemma rollback_reverse_registration_order_witness :
  let m :=
    register [(A, days_after 1); (B, days_after 2); (C, days_after 3)]
      (begin_transaction t0 fresh) in
  o_raised (rollback (days_after 4) m []) = None /\
  o_invoked (rollback (days_after 4) m []) = [C; B; A] /\
  o_world (rollback (days_after 4) m []) = ["C"; "B"; "A"]%string.
Proof.
  exact (proj2
           (rollback_reverse_registration_order
              (begin_transaction t0 fresh) [] []
              [(A, days_after 1); (B, days_after 2); (C, days_after 3)]
              (days_after 4) [] eq_refl)
           (conj eq_refl (conj eq_refl (conj eq_refl I)))).
Defined.

(** C2 does not hold when a compensation raises: of [A], [B], [C]
    registered in that order with [B] raising, [rollback] runs [C] and
    [B] and never [A]. *)
Lemma rollback_skips_what_was_registered_before_a_failure :
  let m :=
    register
      [(A, days_after 1); (B_raising, days_after 2); (C, days_after 3)]
      (begin_transaction t0 fresh) in
  let out := rollback (days_after 4) m [] in
  o_invoked out = [C; B_raising] /\
  o_invoked out <> rev [A; B_raising; C] /\
  o_world out = ["C"; "B"]%string.
Proof.
  cbn zeta. split; [reflexivity|]. split; [|reflexivity].
  intros H. apply (f_equal (@List.length _)) in H. discriminate H.
Defined.

Lemma rollback_halts_at_first_failure_witness :
  let m :=
    register
      [(A, days_after 1); (B_raising, days_after 2); (C, days_after 3)]
      (begin_transaction t0 fresh) in
  rollback (days_after 4) m [] =
  {| o_tm := after_pop (days_after 4) m;
     o_world := ["C"; "B"]%string;
     o_invoked := [C; B_raising];
     o_raised := Some (TransactionError "Rollback failed: boom") |}.
Proof.
  exact (rollback_halts_at_first_failure
           (register
              [(A, days_after 1); (B_raising, days_after 2);
               (C, days_after 3)]
              (begin_transaction t0 fresh))
           [] [A] [C] B_raising (days_after 4) [] ["C"; "B"]%string
           (mk_exn ExceptionT "boom") eq_refl (conj eq_refl I) eq_refl).
Defined.

(** C3 does not hold for an exception outside [Exception]: a compensation
    interrupted from the keyboard stops the rollback, and what escapes is
    the [KeyboardInterrupt] itself, not a [TransactionError]. *)
Lemma rollback_lets_a_keyboard_interrupt_escape :
  let m :=
    register
      [(A, days_after 1); (B_interrupted, days_after 2); (C, days_after 3)]
      (begin_transaction t0 fresh) in
  let out := rollback (days_after 4) m [] in
  o_invoked out = [C; B_interrupted] /\
  o_raised out = Some (mk_exn KeyboardInterruptT "") /\
  ~ (exists e : exn,
       o_raised out = Some e /\ exc_class e = TransactionErrorT).
Proof.
  cbn zeta. split; [reflexivity|]. split; [reflexivity|].
  intros (e & He & Hc). injection He as <-. discriminate Hc.
Defined.

Lemma transaction_rolls_back_then_raises_witness :
  let out := transaction t0 (days_after 2) (failing_work A "disk full") fresh [] in
  o_world out = ["work"; "A"]%string /\
  o_invoked out = [A] /\
  o_raised out = Some (TransactionError "Transaction failed: disk full").
Proof.
  destruct (proj1
              (transaction_rolls_back_then_raises
                 t0 (days_after 2) (failing_work A "disk full") fresh []
                 (mk_exn ExceptionT "disk full") eq_refl)
              eq_refl)
    as (_ & Hw & Hi & [[_ Hr] | (e' & Hrb & _)]).
  - split; [exact Hw | split; [exact Hi | exact Hr]].
  - discriminate Hrb.
Defined.

(** C4 does not hold for an exception outside [Exception]: when the body
    is interrupted from the keyboard, the block performs no rollback (the
    registered compensation is not invoked and the frame stays open, its
    entry in progress) and what escapes is the [KeyboardInterrupt]
    itself. *)
Lemma transaction_lets_a_keyboard_interrupt_through :
  let out := transaction t0 (days_after 2) (interrupted_work A) fresh [] in
  o_raised out = Some (mk_exn KeyboardInterruptT "") /\
  o_invoked out = [] /\
  transaction_stack (o_tm out) = [[A]] /\
  map status (transaction_log (o_tm out)) = [in_progress] /\
  ~ (exists e : exn,
       o_raised out = Some e /\ exc_class e = TransactionErrorT).
Proof.
  cbn zeta. repeat (split; [reflexivity|]).
  intros (e & He & Hc). injection He as <-. discriminate Hc.
Defined.

Lemma rollback_and_wrapper_failures_share_class_witness :
  o_raised
    (rollback (days_after 4)
       (register [(B_raising, days_after 1)] (begin_transaction t0 fresh)) [])
  = Some (TransactionError "Rollback failed: boom") /\
  o_raised (transaction t0 (days_after 2) (failing_work A "disk full") fresh [])
  = Some (TransactionError "Transaction failed: disk full") /\
  exc_class (TransactionError "Rollback failed: boom") =
  exc_class (TransactionError "Transaction failed: disk full").
Proof.
  split; [reflexivity|]. split; [reflexivity|].
  exact (proj1 (proj2 (proj2
    (rollback_and_wrapper_failures_share_class
       (days_after 4)
       (register [(B_raising, days_after 1)] (begin_transaction t0 fresh)) []
       (TransactionError "Rollback failed: boom")
       t0 (days_after 2) (failing_work A "disk full") fresh []
       (TransactionError "Transaction failed: disk full")
       eq_refl eq_refl eq_refl eq_refl)))).
Defined.

(** C10 does not hold for exceptions outside [Exception]: a compensation
    or a body interrupted from the keyboard makes [rollback] and the
    context manager raise a [KeyboardInterrupt], whose class is not
    [TransactionError]. *)
Lemma interrupts_escape_with_their_own_class :
  option_map exc_class
    (o_raised
       (rollback (days_after 4)
          (register [(B_interrupted, days_after 1)]
             (begin_transaction t0 fresh)) []))
  = Some KeyboardInterruptT /\
  option_map exc_class
    (o_raised
       (transaction t0 (days_after 2) (interrupted_work A) fresh []))
  = Some KeyboardInterruptT /\
  KeyboardInterruptT <> TransactionErrorT.
Proof.
  split; [reflexivity|]. split; [reflexivity|]. intros H. discriminate H.
Defined.

(** A frame with two compensations, the later one reading the log, the
    earlier one raising: the reader runs first and finds the entry
    closed, and the log keeps the closed entry although the rollback
    fails. *)
Lemma rollback_records_before_compensating_witness :
  let mid :=
    [ AddRollbackAction B_raising (days_after 1);
      AddAction "create" [("id", "7")]%string (days_after 2);
      AddRollbackAction probe (days_after 3) ] in
  let s := run (Begin t0 :: mid) fresh [] in
  let out := rollback (days_after 4) (o_tm s) (o_world s) in
  forallb registers_only mid = true /\
  transaction_log (o_tm out) =
  [ mk_entry t0
      [ mk_audit "rollback_action" None (days_after 1);
        mk_audit "create" (Some [("id", "7")]%string) (days_after 2);
        mk_audit "rollback_action" None (days_after 3) ]
      rolled_back (Some (days_after 4)) ] /\
  o_world out = ["closed"; "B"]%string /\
  o_raised out = Some (TransactionError "Rollback failed: boom").
Proof.
  intros mid s out. split; [reflexivity|].
  destruct (rollback_records_before_compensating
              fresh [] t0 mid (days_after 4) eq_refl)
    as (frame & entry & _ & _ & Hl & _ & _ & _ & Hlog & _).
  cbn in Hl. injection Hl as <-.
  split; [exact Hlog|]. split; reflexivity.
Defined.

(** C8 does not hold on a pruned log: [begin], then a [clear_logs] that
    prunes the
    open frame's entry; the stack is not empty, and [rollback] pops the
    frame and records nothing, so no entry of the log says
    [rolled_back]. *)
Lemma rollback_on_a_pruned_log_records_nothing :
  let m : TM := o_tm (run [Begin t0; ClearLogs 0 t0] fresh []) in
  let out := rollback (days_after 1) m [] in
  transaction_stack m = [[]] /\
  transaction_stack (o_tm out) = [] /\
  ~ (exists e : LogEntry,
       In e (transaction_log (o_tm out)) /\ status e = rolled_back).
Proof.
  cbn zeta. split; [reflexivity|]. split; [reflexivity|].
  intros (e & Hin & _). exact Hin.
Defined.



End ScenarioFacts.

(** ** Further properties of the manager *)

Section Lifecycle.

Context {World Details : Type}.

Abbreviation TM := (@TransactionManager World Details).
Abbreviation Action := (@Callable World Details).
Abbreviation Op := (@op World Details).
Abbreviation Entry := (@LogEntry Details).

Lemma closed_iff_ended_close (s : Status) (now : datetime) (e : Entry) :
  s <> in_progress -> closed_iff_ended (close_entry s now e).
Proof. intros Hs. split; cbn; intros H; [contradiction|discriminate]. Qed.

Lemma Forall_snoc_inv {A : Type} (P : A -> Prop) (l : list A) (x : A) :
  Forall P (l ++ [x]) -> Forall P l /\ P x.
Proof.
  intros H. apply Forall_app in H as [Hl Hx]. split; [assumption|].
  now inversion Hx.
Qed.

Lemma Forall_snoc {A : Type} (P : A -> Prop) (l : list A) (x : A) :
  Forall P l -> P x -> Forall P (l ++ [x]).
Proof. intros Hl Hx. apply Forall_app. split; [assumption|]. now constructor. Qed.

Lemma run_actions_log (todo : list Action) (m : TM) (w : World) :
  transaction_log (o_tm (run_actions todo m w)) = transaction_log m.
Proof. now rewrite run_actions_tm. Qed.

Lemma step_closed_iff_ended (o : Op) (m : TM) (w : World) :
  Forall closed_iff_ended (transaction_log m) ->
  Forall closed_iff_ended (transaction_log (o_tm (step o m w))).
Proof.
  intros Hm. destruct o as [t|a t|ty d t|t|t|n t]; cbn.
  - apply Forall_snoc; [assumption|]. split; reflexivity.
  - unfold add_rollback_action.
    destruct (pop (transaction_stack m)) as [[below top]|]; [|assumption].
    cbn. destruct (pop (transaction_log m)) as [[older e]|] eqn:E;
      cbn; [|assumption].
    apply pop_Some in E. rewrite E in Hm.
    apply Forall_snoc_inv in Hm as [Ho He].
    apply Forall_snoc; [assumption|exact He].
  - unfold add_action.
    destruct (pop (transaction_log m)) as [[older e]|] eqn:E;
      cbn; [|assumption].
    apply pop_Some in E. rewrite E in Hm.
    apply Forall_snoc_inv in Hm as [Ho He].
    apply Forall_snoc; [assumption|exact He].
  - unfold commit.
    destruct (pop (transaction_stack m)) as [[below top]|]; [|assumption].
    cbn. destruct (pop (transaction_log m)) as [[older e]|] eqn:E;
      cbn; [|assumption].
    apply pop_Some in E. rewrite E in Hm.
    apply Forall_snoc_inv in Hm as [Ho He].
    apply Forall_snoc; [assumption|].
    now apply closed_iff_ended_close.
  - rewrite rollback_tm. unfold after_pop.
    destruct (pop (transaction_stack m)) as [[below top]|]; [|assumption].
    destruct (pop (transaction_log m)) as [[older e]|] eqn:E;
      cbn; [|assumption].
    apply pop_Some in E. rewrite E in Hm.
    apply Forall_snoc_inv in Hm as [Ho He].
    apply Forall_snoc; [assumption|].
    now apply closed_iff_ended_close.
  - destruct (sub_days t n) as [cutoff|] eqn:E.
    2:{ destruct (clear_logs_overflow n t m E) as (e & -> & _). exact Hm. }
    rewrite (clear_logs_cutoff n t cutoff m E). cbn.
    rewrite Forall_forall in *. intros e He. apply filter_In in He as [He _].
    now apply Hm.
Qed.

Lemma run_closed_iff_ended (ops : list Op) (m : TM) (w : World) :
  Forall closed_iff_ended (transaction_log m) ->
  Forall closed_iff_ended (transaction_log (o_tm (run ops m w))).
Proof.
  revert m w; induction ops as [|o ops IH]; intros m w Hm; cbn; [assumption|].
  pose proof (step_closed_iff_ended o m w Hm) as Hstep.
  destruct (o_raised (step o m w)); [assumption|]. cbn. now apply IH.
Qed.

(** X1. Whatever sequence of calls a fresh manager receives, and wherever
    an exception stops it, every entry of the log has its end time set
    exactly when its status is no longer [in_progress]. *)
Theorem log_entries_closed_iff_ended (ops : list Op) (w : World) :
  Forall closed_iff_ended (transaction_log (o_tm (run ops init w))).
Proof. apply run_closed_iff_ended. constructor. Qed.

(** X2. [begin_transaction] deepens the stack by one frame, [commit] and
    [rollback] remove one frame when there is one (also when a
    compensation raises), and no other call changes the depth (also when
    it raises). *)
Theorem step_stack_depth (o : Op) (m : TM) (w : World) :
  List.length (transaction_stack (o_tm (step o m w))) =
  depth_after o (List.length (transaction_stack m)).
Proof.
  destruct o as [t|a t|ty d t|t|t|n t]; cbn.
  - rewrite length_app. cbn. lia.
  - unfold add_rollback_action.
    destruct (pop (transaction_stack m)) as [[below top]|] eqn:E;
      [|reflexivity].
    apply pop_Some in E. rewrite E. cbn.
    destruct (pop (transaction_log m)) as [[older e]|]; cbn;
      now rewrite !length_app.
  - unfold add_action.
    now destruct (pop (transaction_log m)) as [[older e]|].
  - unfold commit.
    destruct (pop (transaction_stack m)) as [[below top]|] eqn:E.
    + apply pop_Some in E. rewrite E, length_app. cbn.
      destruct (pop (transaction_log m)) as [[older e]|]; cbn; lia.
    + now rewrite (pop_None _ E).
  - rewrite rollback_tm. unfold after_pop.
    destruct (pop (transaction_stack m)) as [[below top]|] eqn:E.
    + apply pop_Some in E. rewrite E, length_app. cbn.
      destruct (pop (transaction_log m)) as [[older e]|]; cbn; lia.
    + now rewrite (pop_None _ E).
  - destruct (sub_days t n) as [cutoff|] eqn:E.
    + now rewrite (clear_logs_cutoff n t cutoff m E).
    + now destruct (clear_logs_overflow n t m E) as (e & -> & _).
Qed.

Lemma commit_stack (m : TM) (below : list (list Action)) (frame : list Action)
  (now : datetime) :
  transaction_stack m = below ++ [frame] ->
  transaction_stack (commit now m) = below.
Proof.
  intros Hs. unfold commit. rewrite Hs, pop_snoc. cbn.
  now destruct (pop (transaction_log m)) as [[older e]|].
Qed.

Lemma rollback_stack (m : TM) (below : list (list Action))
  (frame : list Action) (now : datetime) (w : World) :
  transaction_stack m = below ++ [frame] ->
  transaction_stack (o_tm (rollback now m w)) = below.
Proof.
  intros Hs. rewrite rollback_tm. unfold after_pop. rewrite Hs, pop_snoc.
  now destruct (pop (transaction_log m)) as [[older e]|].
Qed.

(** X3. [commit] and [rollback] remove exactly the top frame and leave the
    frames below it as they are; [rollback] does so also when a
    compensation raises, so the compensations it skipped are gone with
    the frame. *)
Theorem commit_and_rollback_pop_the_top_frame
  (m : TM) (below : list (list Action)) (frame : list Action)
  (now : datetime) (w : World) :
  transaction_stack m = below ++ [frame] ->
  transaction_stack (commit now m) = below /\
  transaction_stack (o_tm (rollback now m w)) = below.
Proof.
  intros Hs. split;
    [now apply commit_stack with frame | now apply rollback_stack with frame].
Qed.

(** X4. No call other than [begin_transaction] and [clear_logs] adds or
    removes a log entry or changes a start time: [begin_transaction]
    appends one entry starting now, [clear_logs] keeps the entries after
    its cutoff, and the start times are otherwise as before. *)
Theorem step_log_start_times (o : Op) (m : TM) (w : World) :
  map start_time (transaction_log (o_tm (step o m w))) =
  start_times_after o (map start_time (transaction_log m)).
Proof.
  destruct o as [t|a t|ty d t|t|t|n t]; cbn.
  - now rewrite map_app.
  - unfold add_rollback_action.
    destruct (pop (transaction_stack m)) as [[below top]|]; [|reflexivity].
    cbn. destruct (pop (transaction_log m)) as [[older e]|] eqn:E;
      cbn; [|reflexivity].
    apply pop_Some in E. now rewrite E, !map_app.
  - unfold add_action.
    destruct (pop (transaction_log m)) as [[older e]|] eqn:E;
      cbn; [|reflexivity].
    apply pop_Some in E. now rewrite E, !map_app.
  - unfold commit.
    destruct (pop (transaction_stack m)) as [[below top]|]; [|reflexivity].
    cbn. destruct (pop (transaction_log m)) as [[older e]|] eqn:E;
      cbn; [|reflexivity].
    apply pop_Some in E. now rewrite E, !map_app.
  - rewrite rollback_tm. unfold after_pop.
    destruct (pop (transaction_stack m)) as [[below top]|]; [|reflexivity].
    destruct (pop (transaction_log m)) as [[older e]|] eqn:E;
      cbn; [|reflexivity].
    apply pop_Some in E. now rewrite E, !map_app.
  - destruct (sub_days t n) as [cutoff|] eqn:E.
    2:{ now destruct (clear_logs_overflow n t m E) as (e & -> & _). }
    rewrite (clear_logs_cutoff n t cutoff m E). cbn.
    induction (transaction_log m) as [|e l IH]; cbn; [reflexivity|].
    destruct (cutoff <? start_time e); cbn; now rewrite IH.
Qed.

End Lifecycle.

(** ** What is invoked, and on what *)

Section Invocation.

Context {World Details : Type}.

Abbreviation TM := (@TransactionManager World Details).
Abbreviation Action := (@Callable World Details).
Abbreviation Op := (@op World Details).

Lemma pending_snoc (m : TM) (below : list (list Action)) (frame : list Action) :
  transaction_stack m = below ++ [frame] ->
  pending m = List.concat below ++ frame.
Proof.
  intros Hs. unfold pending. rewrite Hs, concat_app. cbn.
  now rewrite app_nil_r.
Qed.

Lemma in_firstn {A : Type} (k : nat) (l : list A) (x : A) :
  In x (firstn k l) -> In x l.
Proof.
  revert l; induction k as [|k IH]; intros [|y l]; cbn; try contradiction.
  intros [H|H]; [now left | right; now apply IH].
Qed.

Lemma step_invoked_pending (o : Op) (m : TM) (w : World) (a : Action) :
  In a (o_invoked (step o m w)) -> In a (pending m).
Proof.
  destruct o as [t|b t|ty d t|t|t|n t]; cbn; try contradiction.
  unfold rollback.
  destruct (pop (transaction_stack m)) as [[below frame]|] eqn:E;
    [|contradiction].
  apply pop_Some in E. rewrite (pending_snoc m below frame E).
  destruct (run_actions_prefix (rev frame)
              (match pop (transaction_log (set_stack m below)) with
               | Some (older, e) =>
                   set_log (set_stack m below)
                     (older ++ [close_entry rolled_back t e])
               | None => set_stack m below
               end) w) as [k Hk].
  rewrite Hk. intros Hin. apply in_or_app. right.
  apply in_rev. eapply in_firstn. exact Hin.
Qed.

Lemma step_pending (o : Op) (m : TM) (w : World) (a : Action) :
  In a (pending (o_tm (step o m w))) ->
  In a (pending m) \/ In a (registered [o]).
Proof.
  destruct o as [t|b t|ty d t|t|t|n t];
    cbn [step of_pair returns o_tm fst registered flat_map app].
  - unfold pending. cbn. rewrite concat_app. cbn. rewrite !app_nil_r. auto.
  - unfold add_rollback_action.
    destruct (pop (transaction_stack m)) as [[below top]|] eqn:E; [|auto].
    apply pop_Some in E. rewrite (pending_snoc m below top E).
    assert (Hp : forall m' : TM,
      transaction_stack m' = below ++ [top ++ [b]] ->
      In a (pending m') -> In a (List.concat below ++ top) \/ In a [b]).
    { intros m' Hs'. rewrite (pending_snoc m' _ _ Hs').
      rewrite !in_app_iff. tauto. }
    cbn [set_stack transaction_log].
    destruct (pop (transaction_log m)) as [[older e]|];
      cbn [fst]; now apply Hp.
  - unfold add_action.
    destruct (pop (transaction_log m)) as [[older e]|]; auto.
  - unfold commit.
    destruct (pop (transaction_stack m)) as [[below top]|] eqn:E; [|auto].
    apply pop_Some in E. rewrite (pending_snoc m below top E).
    cbn [set_stack transaction_log].
    destruct (pop (transaction_log m)) as [[older e]|]; unfold pending;
      cbn [transaction_stack set_log set_stack]; rewrite in_app_iff; auto.
  - rewrite rollback_tm. unfold after_pop.
    destruct (pop (transaction_stack m)) as [[below top]|] eqn:E; [|auto].
    apply pop_Some in E. rewrite (pending_snoc m below top E).
    destruct (pop (transaction_log m)) as [[older e]|]; unfold pending;
      cbn [transaction_stack set_log set_stack]; rewrite in_app_iff; auto.
  - destruct (sub_days t n) as [cutoff|] eqn:E.
    + rewrite (clear_logs_cutoff n t cutoff m E). auto.
    + destruct (clear_logs_overflow n t m E) as (e & -> & _). auto.
Qed.

Lemma run_invoked_or_pending (ops : list Op) (m : TM) (w : World) (a : Action) :
  In a (o_invoked (run ops m w)) \/ In a (pending (o_tm (run ops m w))) ->
  In a (pending m) \/ In a (registered ops).
Proof.
  revert m w; induction ops as [|o ops IH]; intros m w; cbn.
  - intros [[]|H]; auto.
  - pose proof (step_invoked_pending o m w a) as Hinv.
    pose proof (step_pending o m w a) as Hpend.
    unfold registered in *. cbn in Hpend. rewrite app_nil_r in Hpend.
    rewrite in_app_iff.
    destruct (o_raised (step o m w)).
    + intros [H|H]; [auto | destruct (Hpend H); auto].
    + cbn. rewrite in_app_iff. intros [[H|H]|H]; [auto| |].
      * destruct (IH _ _ (or_introl H)) as [H'|H']; [|auto].
        destruct (Hpend H'); auto.
      * destruct (IH _ _ (or_intror H)) as [H'|H']; [|auto].
        destruct (Hpend H'); auto.
Qed.

(** X5. Over any sequence of calls, [rollback] only ever invokes actions
    that the open frames held at the start or that the sequence itself
    registers with [add_rollback_action]; on a fresh manager, only the
    latter. *)
Theorem run_invokes_only_registered_actions
  (ops : list Op) (m : TM) (w : World) (a : Action) :
  In a (o_invoked (run ops m w)) ->
  In a (pending m) \/ In a (registered ops).
Proof. intros H. apply (run_invoked_or_pending ops m w a). now left. Qed.

(** X6. Once a frame is committed its compensations are discarded: no
    later sequence of calls invokes one of them, unless a frame below
    holds the same action or the sequence registers it again. *)
Theorem commit_discards_compensations
  (m : TM) (below : list (list Action)) (frame : list Action)
  (now : datetime) (ops : list Op) (w : World) (a : Action) :
  transaction_stack m = below ++ [frame] ->
  In a (o_invoked (run ops (commit now m) w)) ->
  In a (List.concat below) \/ In a (registered ops).
Proof.
  intros Hs Hin.
  pose proof (commit_stack m below frame now Hs) as Hc.
  destruct (run_invoked_or_pending ops (commit now m) w a (or_introl Hin))
    as [H|H]; [left|now right].
  unfold pending in H. now rewrite Hc in H.
Qed.

Lemma rollback_all_return (m : TM) (below : list (list Action))
  (frame : list Action) (now : datetime) (w : World) :
  transaction_stack m = below ++ [frame] ->
  return_in_sequence (rev frame) (transaction_log (after_pop now m)) w ->
  rollback now m w =
  {| o_tm := after_pop now m;
     o_world := compose (rev frame) (transaction_log (after_pop now m)) w;
     o_invoked := rev frame;
     o_raised := None |}.
Proof.
  intros Hs Hall. rewrite (rollback_unfold now m w below frame Hs).
  destruct (run_actions_all_return _ _ _ Hall) as (Hr & Hi & Hw).
  pose proof (run_actions_tm (rev frame) (after_pop now m) w) as Htm.
  destruct (run_actions (rev frame) (after_pop now m) w); cbn in *.
  now subst.
Qed.

Lemma after_pop_log (m : TM) (below : list (list Action))
  (frame : list Action) (now : datetime) (older : list LogEntry)
  (e : LogEntry) :
  transaction_stack m = below ++ [frame] ->
  transaction_log m = older ++ [e] ->
  transaction_log (after_pop now m) =
  older ++ [close_entry rolled_back now e].
Proof.
  intros Hs Hl. unfold after_pop. now rewrite Hs, Hl, !pop_snoc.
Qed.

(** X7. When no compensation raises (each returns on the world the ones
    run before it left), [rollback] returns and the world it leaves is the
    world it found with the frame's actions applied one after the other,
    the last registered first.  Each of them reads the log as [rollback]
    left it before the loop: when the log is not empty, with its last
    entry already closed as [rolled_back]. *)
Theorem rollback_composes_compensations
  (m : TM) (below : list (list Action)) (frame : list Action)
  (now : datetime) (w : World) :
  transaction_stack m = below ++ [frame] ->
  return_in_sequence (rev frame) (transaction_log (after_pop now m)) w ->
  o_raised (rollback now m w) = None /\
  o_world (rollback now m w) =
  compose (rev frame) (transaction_log (after_pop now m)) w /\
  (forall (older : list LogEntry) (e : LogEntry),
     transaction_log m = older ++ [e] ->
     transaction_log (after_pop now m) =
     older ++ [close_entry rolled_back now e]).
Proof.
  intros Hs Hall. rewrite (rollback_all_return m below frame now w Hs Hall).
  cbn. repeat split. intros older e Hl.
  now apply after_pop_log with below frame.
Qed.

(** X8. With no open frame, any sequence of [commit], [rollback] and
    [add_rollback_action] calls is inert: the manager (its log included,
    empty or not) and the world are unchanged, nothing is invoked and
    nothing is raised. *)
Theorem closing_calls_are_inert_on_an_empty_stack
  (ops : list Op) (m : TM) (w : World) :
  forallb closes_or_registers ops = true ->
  transaction_stack m = [] ->
  run ops m w = returns m w.
Proof.
  intros Hall Hs. revert Hall. induction ops as [|o ops IH]; cbn;
    [reflexivity|].
  intros H. apply andb_prop in H as [Ho Hops].
  assert (Hstep : step o m w = returns m w).
  { destruct o as [t|a t|ty d t|t|t|n t]; try discriminate Ho; cbn.
    - unfold add_rollback_action. now rewrite Hs.
    - unfold commit. now rewrite Hs.
    - unfold rollback. now rewrite Hs. }
  rewrite Hstep. cbn. rewrite (IH Hops). reflexivity.
Qed.

End Invocation.

(** ** Recording, the context manager and pruning, continued *)

Section Composition.

Context {World Details : Type}.

Abbreviation TM := (@TransactionManager World Details).
Abbreviation Action := (@Callable World Details).
Abbreviation Op := (@op World Details).
Abbreviation Entry := (@LogEntry Details).

Lemma run_cons_returns (o : Op) (ops : list Op) (m m' : TM) (w : World) :
  step o m w = returns m' w -> run (o :: ops) m w = run ops m' w.
Proof. intros H. cbn. rewrite H. cbn. now destruct (run ops m' w). Qed.

Lemma run_recording (mid : list Op) :
  forallb registers_only mid = true ->
  forall (m : TM) (w : World) (below : list (list Action))
    (frame : list Action) (older : list Entry) (entry : Entry),
    transaction_stack m = below ++ [frame] ->
    transaction_log m = older ++ [entry] ->
    run mid m w =
    returns
      {| transaction_stack := below ++ [frame ++ registered mid];
         rollback_actions := rollback_actions m;
         transaction_log := older ++ [extend_audit entry (audited mid)] |}
      w.
Proof.
  induction mid as [|o mid IH]; intros Hall m w below frame older entry Hs Hl.
  - cbn. unfold returns. f_equal. destruct m as [st ra lg]. cbn in *.
    subst st lg. rewrite app_nil_r. unfold extend_audit.
    rewrite app_nil_r. now destruct entry.
  - cbn in Hall. apply andb_prop in Hall as [Ho Hmid].
    destruct o as [t|a t|ty d t|t|t|n t]; try discriminate Ho.
    + set (m1 := set_log (set_stack m (below ++ [frame ++ [a]]))
                    (older ++
                     [append_audit entry
                        (mk_audit "rollback_action" None t)])).
      rewrite (run_cons_returns _ _ _ m1).
      * rewrite (IH Hmid m1 w below (frame ++ [a]) older
                   (append_audit entry (mk_audit "rollback_action" None t))
                   eq_refl eq_refl).
        unfold returns, registered, audited, extend_audit. cbn.
        now rewrite <- !app_assoc.
      * cbn. unfold add_rollback_action. rewrite Hs, pop_snoc.
        cbn [set_stack transaction_log]. rewrite Hl, pop_snoc. reflexivity.
    + set (m1 := set_log m
                    (older ++
                     [append_audit entry (mk_audit ty (Some d) t)])).
      rewrite (run_cons_returns _ _ _ m1).
      * rewrite (IH Hmid m1 w below frame older
                   (append_audit entry (mk_audit ty (Some d) t))
                   Hs eq_refl).
        unfold returns, registered, audited, extend_audit. cbn.
        now rewrite <- !app_assoc.
      * cbn. unfold add_action. rewrite Hl, pop_snoc. reflexivity.
Qed.

(** X9. While a frame is on top of the stack with its entry last in the
    log, a sequence of [add_rollback_action] and [add_action] calls raises
    nothing, appends the registered actions to the frame in call order and
    appends exactly one audit entry per call to the entry, in call order,
    with the call's type, payload and instant; nothing else changes. *)
Theorem recording_appends_in_call_order
  (mid : list Op) (m : TM) (w : World) (below : list (list Action))
  (frame : list Action) (older : list Entry) (entry : Entry) :
  forallb registers_only mid = true ->
  transaction_stack m = below ++ [frame] ->
  transaction_log m = older ++ [entry] ->
  run mid m w =
  returns
    {| transaction_stack := below ++ [frame ++ registered mid];
       rollback_actions := rollback_actions m;
       transaction_log := older ++ [extend_audit entry (audited mid)] |}
    w.
Proof. intros Hall. now apply run_recording. Qed.

(** X10. The context manager raises exactly when its body raises: a
    failure of the body is never swallowed, and a body that returns is
    never turned into a failure. *)
Theorem transaction_raises_iff_body_raises
  (t_begin t_end : datetime) (work : TM -> World -> Outcome)
  (m : TM) (w : World) :
  o_raised (transaction t_begin t_end work m w) = None <->
  o_raised (work (begin_transaction t_begin m) w) = None.
Proof.
  unfold transaction.
  destruct (o_raised (work (begin_transaction t_begin m) w)) as [e|] eqn:Hb;
    cbn.
  - split; [|discriminate].
    destruct (is_exception e); cbn.
    + now destruct (o_raised (rollback t_end _ _)).
    + now rewrite Hb.
  - split; reflexivity.
Qed.

(** X11. When the body leaves on the stack the frame the context manager
    pushed (whatever it registered in it), the stack after the [with]
    block is the stack before it, on the commit path and on the rollback
    path, also when a compensation raises.  On the third path, a body
    raising outside [Exception], nothing is popped and the frame stays on
    the stack. *)
Theorem transaction_restores_the_stack
  (t_begin t_end : datetime) (work : TM -> World -> Outcome)
  (m : TM) (w : World) (frame : list Action) :
  transaction_stack (o_tm (work (begin_transaction t_begin m) w)) =
  transaction_stack m ++ [frame] ->
  ((forall e : exn,
      o_raised (work (begin_transaction t_begin m) w) = Some e ->
      is_exception e = true) ->
   transaction_stack (o_tm (transaction t_begin t_end work m w)) =
   transaction_stack m) /\
  (forall e : exn,
     o_raised (work (begin_transaction t_begin m) w) = Some e ->
     is_exception e = false ->
     transaction_stack (o_tm (transaction t_begin t_end work m w)) =
     transaction_stack m ++ [frame]).
Proof.
  intros Hs. unfold transaction.
  destruct (o_raised (work (begin_transaction t_begin m) w)) as [e|]; cbn.
  - split.
    + intros He. rewrite (He e eq_refl). cbn.
      now apply rollback_stack with frame.
    + intros e' [= <-] He. now rewrite He.
  - split; [intros _; now apply commit_stack with frame|].
    intros e He. discriminate He.
Qed.

(** X12. A [with] block whose body only records ([add_rollback_action] and
    [add_action] calls) returns without invoking anything, leaves the
    stack as it was and appends to the log one entry that starts at the
    block's entry, holds one audit entry per call in call order, and is
    [committed] with the exit instant as its end time. *)
Theorem transaction_commits_a_recording_body
  (t_begin t_end : datetime) (mid : list Op) (m : TM) (w : World) :
  forallb registers_only mid = true ->
  transaction t_begin t_end (run mid) m w =
  returns
    {| transaction_stack := transaction_stack m;
       rollback_actions := rollback_actions m;
       transaction_log :=
         transaction_log m ++
         [mk_entry t_begin (audited mid) committed (Some t_end)] |}
    w.
Proof.
  intros Hall. unfold transaction.
  rewrite (run_recording mid Hall (begin_transaction t_begin m) w
             (transaction_stack m) [] (transaction_log m)
             (mk_entry t_begin [] in_progress None) eq_refl eq_refl).
  cbn. unfold commit. cbn. rewrite !pop_snoc. cbn. rewrite ?pop_snoc.
  reflexivity.
Qed.

(** X13. A [with] block nested in another: when the inner body raises an
    instance [e] of [Exception] and no compensation of either frame
    raises, the inner block rolls its frame back and raises a
    [TransactionError], the outer block catches it, rolls its own frame
    back and raises a [TransactionError] whose text nests the two
    prefixes; both frames are gone and their compensations have run,
    the inner frame's first. *)
Theorem nested_transaction_failure_nests_the_message
  (t1 t2 t3 t4 : datetime) (work : TM -> World -> Outcome)
  (m : TM) (w : World) (e : exn) (outer_frame inner_frame : list Action) :
  let body := work (begin_transaction t2 (begin_transaction t1 m)) w in
  let m3 := after_pop t3 (o_tm body) in
  let w3 := compose (rev inner_frame) (transaction_log m3) (o_world body) in
  let m4 := after_pop t4 m3 in
  let w4 := compose (rev outer_frame) (transaction_log m4) w3 in
  o_raised body = Some e ->
  is_exception e = true ->
  transaction_stack (o_tm body) =
  (transaction_stack m ++ [outer_frame]) ++ [inner_frame] ->
  return_in_sequence (rev inner_frame) (transaction_log m3) (o_world body) ->
  return_in_sequence (rev outer_frame) (transaction_log m4) w3 ->
  transaction t1 t4 (transaction t2 t3 work) m w =
  {| o_tm := m4; o_world := w4;
     o_invoked := (o_invoked body ++ rev inner_frame) ++ rev outer_frame;
     o_raised :=
       Some (TransactionError
               ("Transaction failed: Transaction failed: " ++ exc_str e)) |}.
Proof.
  intros body m3 w3 m4 w4 Hb He Hs H3 H4.
  pose proof (rollback_all_return (o_tm body) _ inner_frame t3 (o_world body)
                Hs H3) as R3.
  fold m3 w3 in R3.
  assert (Hs3 : transaction_stack m3 = transaction_stack m ++ [outer_frame]).
  { subst m3. rewrite <- (rollback_tm t3 (o_tm body) (o_world body)).
    now apply rollback_stack with inner_frame. }
  pose proof (rollback_all_return m3 _ outer_frame t4 w3 Hs3 H4) as R4.
  fold m4 w4 in R4.
  unfold transaction. fold body. rewrite Hb, He. cbn zeta. rewrite R3.
  cbn. rewrite R4. reflexivity.
Qed.

Lemma filter_idempotent {A : Type} (f : A -> bool) (l : list A) :
  filter f (filter f l) = filter f l.
Proof.
  induction l as [|x l IH]; cbn; [reflexivity|].
  destruct (f x) eqn:E; cbn; [rewrite E; now f_equal | exact IH].
Qed.

(** X14. Pruning twice with the same arguments at the same instant is
    pruning once: the second call removes nothing more (and when the
    first raised, the manager is as it was). *)
Theorem clear_logs_idempotent (n : Z) (now : datetime) (m : TM) :
  fst (clear_logs n now (fst (clear_logs n now m))) = fst (clear_logs n now m).
Proof.
  destruct (sub_days now n) as [cutoff|] eqn:E.
  - rewrite (clear_logs_cutoff n now cutoff m E). cbn [fst].
    rewrite (clear_logs_cutoff n now cutoff _ E). cbn.
    unfold set_log. cbn. now rewrite filter_idempotent.
  - destruct (clear_logs_overflow n now m E) as (e & He & _).
    rewrite He. cbn [fst]. now rewrite He.
Qed.

(** X15. At one instant, a larger [older_than_days] keeps at least the
    entries a smaller one keeps (both within the calendar). *)
Theorem clear_logs_monotone (n1 n2 : Z) (now : datetime) (m : TM) (e : Entry) :
  n1 <= n2 ->
  Z.abs n1 <= max_timedelta_days ->
  Z.abs n2 <= max_timedelta_days ->
  representable (now - n1 * usec_per_day) = true ->
  representable (now - n2 * usec_per_day) = true ->
  In e (transaction_log (fst (clear_logs n1 now m))) ->
  In e (transaction_log (fst (clear_logs n2 now m))).
Proof.
  intros Hle H1 H2 R1 R2.
  rewrite (clear_logs_cutoff n1 now (now - n1 * usec_per_day) m)
    by (unfold sub_days; apply Z.leb_le in H1; now rewrite H1, R1).
  rewrite (clear_logs_cutoff n2 now (now - n2 * usec_per_day) m)
    by (unfold sub_days; apply Z.leb_le in H2; now rewrite H2, R2).
  cbn.
  rewrite !filter_In, !Z.ltb_lt. intros [Hin Hlt]. split; [assumption|].
  unfold usec_per_day in *. nia.
Qed.

End Composition.

(** ** The cache *)

Section StrFacts.

Local Open Scope string_scope.

Lemma prefix_spec (p s : string) :
  prefix p s = true <-> exists b : string, s = p ++ b.
Proof.
  revert s; induction p as [|c p IH]; intros s.
  - split; [intros _; now exists s | intros _; now destruct s].
  - destruct s as [|d s]; cbn.
    + split; [discriminate | intros [b H]; discriminate].
    + destruct (Ascii.ascii_dec c d) as [->|Hne].
      * rewrite IH.
        split; intros [b H]; exists b; [now rewrite H | now injection H].
      * split; [discriminate|]. intros [b H]. injection H as H1 _.
        congruence.
Qed.

Lemma contains_unfold (sub s : string) :
  PyStr.contains sub s =
  prefix sub s ||
  match s with
  | EmptyString => false
  | String _ s' => PyStr.contains sub s'
  end.
Proof. now destruct s. Qed.

(** [contains sub s] holds exactly when [sub] occurs in [s]. *)
Lemma contains_spec (sub s : string) :
  PyStr.contains sub s = true <-> exists a b : string, s = a ++ sub ++ b.
Proof.
  split.
  - induction s as [|c s IH]; rewrite contains_unfold; intros H;
      apply orb_prop in H as [H|H]; try discriminate.
    + apply prefix_spec in H as [b Hb]. now exists "", b.
    + apply prefix_spec in H as [b Hb]. now exists "", b.
    + destruct (IH H) as (a & b & Hs). exists (String c a), b. cbn.
      now rewrite Hs.
  - intros (a & b & Hs). subst s. induction a as [|c a IH].
    + rewrite contains_unfold. apply orb_true_intro. left.
      apply prefix_spec. now exists b.
    + cbn [append]. rewrite contains_unfold, IH. apply orb_true_r.
Qed.

Lemma contains_empty (s : string) : PyStr.contains "" s = true.
Proof. apply contains_spec. now exists "", s. Qed.

End StrFacts.

Section DictFacts.

Context {Data : Type}.

Abbreviation Dict := (@dict Data).
Abbreviation Item := (@CacheEntry Data).

Lemma dict_lookup_set (k key : string) (v : Item) (d : Dict) :
  dict_lookup k (dict_set key v d) =
  if String.eqb key k then Some v else dict_lookup k d.
Proof.
  induction d as [|[k0 x] d IH]; cbn.
  - reflexivity.
  - destruct (String.eqb k0 key) eqn:E0; cbn.
    + apply String.eqb_eq in E0. subst k0.
      now destruct (String.eqb key k).
    + rewrite IH. destruct (String.eqb k0 k) eqn:E1; [|reflexivity].
      apply String.eqb_eq in E1. subst k0. now rewrite String.eqb_sym, E0.
Qed.

Lemma dict_lookup_del (k key : string) (d : Dict) :
  dict_lookup k (dict_del key d) =
  if String.eqb key k then None else dict_lookup k d.
Proof.
  unfold dict_del. induction d as [|[k0 x] d IH]; cbn.
  - now destruct (String.eqb key k).
  - destruct (String.eqb k0 key) eqn:E0; cbn.
    + rewrite IH. apply String.eqb_eq in E0. subst k0.
      now destruct (String.eqb key k).
    + rewrite IH. destruct (String.eqb k0 k) eqn:E1; [|reflexivity].
      apply String.eqb_eq in E1. subst k0. now rewrite String.eqb_sym, E0.
Qed.

Lemma dict_lookup_del_all (k : string) (keys : list string) (d : Dict) :
  dict_lookup k (fold_left (fun d key => dict_del key d) keys d) =
  if existsb (fun key => String.eqb key k) keys then None
  else dict_lookup k d.
Proof.
  revert d; induction keys as [|key keys IH]; intros d; cbn; [reflexivity|].
  rewrite IH, dict_lookup_del.
  destruct (String.eqb key k); cbn; [|reflexivity].
  now destruct (existsb _ keys).
Qed.

Lemma dict_lookup_None (k : string) (d : Dict) :
  dict_lookup k d = None <-> ~ In k (map fst d).
Proof.
  induction d as [|[k0 x] d IH]; cbn; [tauto|].
  destruct (String.eqb k0 k) eqn:E.
  - apply String.eqb_eq in E. split; [discriminate | tauto].
  - apply String.eqb_neq in E. rewrite IH. tauto.
Qed.

Lemma dict_lookup_In (k : string) (x : Item) (d : Dict) :
  NoDup (map fst d) -> (dict_lookup k d = Some x <-> In (k, x) d).
Proof.
  induction d as [|[k0 y] d IH]; cbn; intros Hnd.
  - split; [discriminate|contradiction].
  - inversion Hnd as [|? ? Hk0 Hnd']; subst.
    destruct (String.eqb k0 k) eqn:E.
    + apply String.eqb_eq in E. subst k0. split.
      * intros [= ->]. now left.
      * intros [[= ->]|Hin]; [reflexivity|].
        exfalso. apply Hk0. apply (in_map fst) in Hin. exact Hin.
    + apply String.eqb_neq in E. rewrite (IH Hnd'). split; [auto|].
      intros [[= -> _]|Hin]; [contradiction|assumption].
Qed.

Lemma dict_set_keys_present (key : string) (v : Item) (d : Dict) :
  dict_lookup key d <> None -> map fst (dict_set key v d) = map fst d.
Proof.
  induction d as [|[k0 x] d IH]; cbn; [contradiction|].
  destruct (String.eqb k0 key); cbn; [reflexivity|].
  intros H. now rewrite IH.
Qed.

Lemma dict_set_keys_absent (key : string) (v : Item) (d : Dict) :
  dict_lookup key d = None -> map fst (dict_set key v d) = map fst d ++ [key].
Proof.
  induction d as [|[k0 x] d IH]; cbn; [reflexivity|].
  destruct (String.eqb k0 key); cbn; [discriminate|].
  intros H. now rewrite IH.
Qed.

Lemma dict_del_keys (key : string) (d : Dict) :
  map fst (dict_del key d) =
  filter (fun k => negb (String.eqb k key)) (map fst d).
Proof.
  unfold dict_del. induction d as [|[k0 x] d IH]; cbn; [reflexivity|].
  destruct (String.eqb k0 key); cbn; now rewrite IH.
Qed.

Lemma dict_del_all_nil (keys : list string) (d : Dict) :
  (forall k : string, In k (map fst d) -> In k keys) ->
  fold_left (fun d key => dict_del key d) keys d = [].
Proof.
  revert d; induction keys as [|key keys IH]; intros d Hall; cbn.
  - destruct d as [|[k x] d]; [reflexivity|]. destruct (Hall k). now left.
  - apply IH. intros k. rewrite dict_del_keys, filter_In.
    intros [Hin Hne]. destruct (Hall k Hin) as [->|H]; [|assumption].
    now rewrite String.eqb_refl in Hne.
Qed.

Lemma NoDup_filter {A : Type} (f : A -> bool) (l : list A) :
  NoDup l -> NoDup (filter f l).
Proof.
  induction 1 as [|x l Hx Hnd IH]; cbn; [constructor|].
  destruct (f x); [|assumption]. constructor; [|assumption].
  rewrite filter_In. tauto.
Qed.

Lemma dict_del_all_keys_NoDup (keys : list string) (d : Dict) :
  NoDup (map fst d) ->
  NoDup (map fst (fold_left (fun d key => dict_del key d) keys d)).
Proof.
  revert d; induction keys as [|key keys IH]; intros d Hnd; cbn; [assumption|].
  apply IH. rewrite dict_del_keys. now apply NoDup_filter.
Qed.

End DictFacts.

Section CacheFacts.

Context {Data : Type}.

Abbreviation Cache := (@CacheManager Data).
Abbreviation CEntry := (@CacheEntry Data).

Lemma timedelta_in_range (s : Z) :
  Z.abs (s / 86400) <= max_timedelta_days ->
  timedelta_of_seconds s = inr (s * 1000000).
Proof.
  intros H. unfold timedelta_of_seconds. apply Z.leb_le in H. now rewrite H.
Qed.

Lemma timedelta_out_of_range (s : Z) :
  max_timedelta_days < Z.abs (s / 86400) ->
  exists e : exn,
    timedelta_of_seconds s = inl e /\ exc_class e = OverflowErrorT.
Proof.
  intros H. unfold timedelta_of_seconds. apply Z.leb_gt in H. rewrite H.
  destruct ((- 2 ^ 31 <=? s / 86400) && (s / 86400 <? 2 ^ 31));
    eexists; split; reflexivity.
Qed.

Lemma timedelta_cases (s : Z) :
  (Z.abs (s / 86400) <= max_timedelta_days /\
   timedelta_of_seconds s = inr (s * 1000000)) \/
  (max_timedelta_days < Z.abs (s / 86400) /\
   exists e : exn,
     timedelta_of_seconds s = inl e /\ exc_class e = OverflowErrorT).
Proof.
  destruct (Z.le_gt_cases (Z.abs (s / 86400)) max_timedelta_days) as [H|H].
  - left. split; [assumption | now apply timedelta_in_range].
  - right. split; [assumption | now apply timedelta_out_of_range].
Qed.

(** The keys stay distinct. *)
Lemma set_well_formed (key : string) (v : Data) (now : datetime) (c : Cache) :
  well_formed c -> well_formed (set key v now c).
Proof.
  unfold well_formed, set. cbn. intros Hnd.
  destruct (dict_lookup key (cache c)) as [x|] eqn:E.
  - rewrite dict_set_keys_present; [assumption|]. now rewrite E.
  - rewrite (dict_set_keys_absent _ _ _ E).
    apply dict_lookup_None in E. apply NoDup_app; repeat split.
    + assumption.
    + constructor; [intros []|constructor].
    + intros k Hk [<-|[]]. contradiction.
Qed.

Lemma get_well_formed (key : string) (now : datetime) (c : Cache) :
  well_formed c -> well_formed (fst (get key now c)).
Proof.
  unfold well_formed, get. intros Hnd.
  destruct (dict_lookup key (cache c)) as [x|]; [|assumption].
  destruct (timedelta_of_seconds (ttl c)) as [e|limit]; [assumption|].
  destruct (expired now limit x); [|assumption].
  cbn. rewrite dict_del_keys. now apply NoDup_filter.
Qed.

Lemma clear_expired_well_formed (now : datetime) (c : Cache) :
  well_formed c -> well_formed (fst (clear_expired now c)).
Proof.
  unfold well_formed, clear_expired. intros Hnd.
  destruct (cache c) as [|item d] eqn:E;
    [cbn [fst]; rewrite E; exact Hnd|].
  destruct (timedelta_of_seconds (ttl c)) as [e|limit];
    [cbn [fst]; rewrite E; exact Hnd|].
  cbn [fst with_cache cache]. now apply dict_del_all_keys_NoDup.
Qed.

Lemma clear_patient_cache_well_formed (patient_id : string) (c : Cache) :
  well_formed c -> well_formed (clear_patient_cache patient_id c).
Proof.
  unfold well_formed, clear_patient_cache. cbn.
  apply dict_del_all_keys_NoDup.
Qed.

(** X16. Looking a key up after [set]: the key that was set holds the new
    value with the instant of the call (an earlier value and its
    timestamp are replaced), and every other key holds what it held. *)
Theorem set_then_lookup (k key : string) (v : Data) (now : datetime)
  (c : Cache) :
  dict_lookup k (cache (set key v now c)) =
  if String.eqb key k then Some {| data := v; timestamp := now |}
  else dict_lookup k (cache c).
Proof. unfold set. cbn. apply dict_lookup_set. Qed.

(** X17. [set] on a key that is already cached keeps the keys as they
    are, in their order: the entry is replaced in place and the cache
    does not grow. *)
Theorem set_existing_key_keeps_the_keys (key : string) (v : Data)
  (now : datetime) (c : Cache) :
  dict_lookup key (cache c) <> None ->
  map fst (cache (set key v now c)) = map fst (cache c).
Proof. unfold set. cbn. apply dict_set_keys_present. Qed.

(** X18. A value that was [set] is returned by [get] as long as no more
    than [ttl] seconds have passed, the instant exactly [ttl] seconds
    later included, and that [get] leaves the cache as it is. *)
Theorem set_then_get_within_ttl (key : string) (v : Data)
  (now later : datetime) (c : Cache) :
  Z.abs (ttl c / 86400) <= max_timedelta_days ->
  later - now <= ttl c * 1000000 ->
  get key later (set key v now c) = (set key v now c, inr (Some v)).
Proof.
  intros Hr Hle. unfold get. rewrite set_then_lookup, String.eqb_refl.
  cbn [ttl set with_cache]. rewrite (timedelta_in_range _ Hr).
  unfold expired. cbn [timestamp data].
  apply Z.ltb_ge in Hle. now rewrite Hle.
Qed.

(** X19. Once more than [ttl] seconds have passed since the [set], [get]
    returns [None] and deletes the key, and only that key. *)
Theorem set_then_get_after_ttl (key : string) (v : Data)
  (now later : datetime) (c : Cache) :
  Z.abs (ttl c / 86400) <= max_timedelta_days ->
  ttl c * 1000000 < later - now ->
  let after := get key later (set key v now c) in
  snd after = inr None /\
  dict_lookup key (cache (fst after)) = None /\
  (forall k : string,
     k <> key -> dict_lookup k (cache (fst after)) = dict_lookup k (cache c)).
Proof.
  intros Hr Hlt after. subst after. unfold get.
  rewrite set_then_lookup, String.eqb_refl.
  cbn [ttl set with_cache]. rewrite (timedelta_in_range _ Hr).
  unfold expired. cbn [timestamp data].
  apply Z.ltb_lt in Hlt. rewrite Hlt. cbn [fst snd cache with_cache].
  split; [reflexivity|]. split.
  - now rewrite dict_lookup_del, String.eqb_refl.
  - intros k Hk. unfold set. cbn [cache with_cache].
    rewrite dict_lookup_del, dict_lookup_set.
    apply not_eq_sym in Hk. apply String.eqb_neq in Hk. now rewrite Hk.
Qed.

(** X20. [get] never touches another key: whatever it returns or raises,
    every key other than the one asked for holds what it held. *)
Theorem get_leaves_other_keys (k key : string) (now : datetime) (c : Cache) :
  k <> key ->
  dict_lookup k (cache (fst (get key now c))) = dict_lookup k (cache c).
Proof.
  intros Hk. unfold get.
  destruct (dict_lookup key (cache c)) as [x|]; [|reflexivity].
  destruct (timedelta_of_seconds (ttl c)) as [e|limit]; [reflexivity|].
  destruct (expired now limit x); [|reflexivity].
  cbn [fst cache with_cache]. rewrite dict_lookup_del.
  apply not_eq_sym in Hk. apply String.eqb_neq in Hk. now rewrite Hk.
Qed.

(** X21. [get] raises exactly when the key is cached and [ttl] seconds are
    more than 999999999 days in magnitude; a missing key never raises,
    whatever [ttl] is. *)
Theorem get_raises_iff (key : string) (now : datetime) (c : Cache) :
  (exists e : exn, snd (get key now c) = inl e) <->
  dict_lookup key (cache c) <> None /\
  max_timedelta_days < Z.abs (ttl c / 86400).
Proof.
  unfold get. destruct (dict_lookup key (cache c)) as [x|].
  - destruct (timedelta_cases (ttl c)) as [[Hr Ht]|[Hr (e & Ht & _)]];
      rewrite Ht.
    + split.
      * intros [e He]. destruct (expired now (ttl c * 1000000) x);
          discriminate He.
      * intros [_ H]. lia.
    + split; [intros _; split; [discriminate|assumption]|].
      intros _. now exists e.
  - split; [intros [e He]; discriminate He | intros [H _]; now destruct H].
Qed.

Lemma expired_keys_lookup (g : CEntry -> bool) (k : string) (d : @dict Data) :
  NoDup (map fst d) ->
  existsb (fun key => String.eqb key k)
    (map fst (filter (fun item => g (snd item)) d)) =
  match dict_lookup k d with
  | Some x => g x
  | None => false
  end.
Proof.
  induction d as [|[k0 x] d IH]; cbn; intros Hnd; [reflexivity|].
  inversion Hnd as [|? ? Hk0 Hnd']; subst.
  destruct (String.eqb k0 k) eqn:E.
  - apply String.eqb_eq in E. subst k0.
    destruct (g x) eqn:G; cbn; [now rewrite String.eqb_refl|].
    rewrite (IH Hnd'). apply dict_lookup_None in Hk0. now rewrite Hk0.
  - destruct (g x); cbn; [rewrite E; cbn|]; now apply IH.
Qed.

Lemma clear_expired_lookup_in_range (k : string) (now : datetime) (c : Cache) :
  well_formed c ->
  Z.abs (ttl c / 86400) <= max_timedelta_days ->
  dict_lookup k (cache (fst (clear_expired now c))) =
  match dict_lookup k (cache c) with
  | Some x => if expired now (ttl c * 1000000) x then None else Some x
  | None => None
  end.
Proof.
  intros Hwf Hr. unfold clear_expired.
  destruct (cache c) as [|item d] eqn:E; [cbn; now rewrite E|].
  rewrite (timedelta_in_range _ Hr). cbn [fst with_cache cache].
  unfold well_formed in Hwf.
  rewrite <- E, dict_lookup_del_all, (expired_keys_lookup _ _ _ Hwf).
  destruct (dict_lookup k (cache c)) as [x|]; [|reflexivity].
  now destruct (expired now (ttl c * 1000000) x).
Qed.

(** X22. With [ttl] in range, [clear_expired] raises nothing and removes
    exactly the entries older than [ttl] seconds: a key whose entry is
    older is gone, and every other key holds what it held. *)
Theorem clear_expired_removes_the_expired (k : string) (now : datetime)
  (c : Cache) :
  well_formed c ->
  Z.abs (ttl c / 86400) <= max_timedelta_days ->
  snd (clear_expired now c) = None /\
  dict_lookup k (cache (fst (clear_expired now c))) =
  match dict_lookup k (cache c) with
  | Some x => if expired now (ttl c * 1000000) x then None else Some x
  | None => None
  end.
Proof.
  intros Hwf Hr. split; [|now apply clear_expired_lookup_in_range].
  unfold clear_expired. destruct (cache c); [reflexivity|].
  now rewrite (timedelta_in_range _ Hr).
Qed.

(** X23. [clear_expired] and [get] agree on what is expired: every key
    still cached after [clear_expired] is served by a [get] at the same
    instant, which changes nothing. *)
Theorem clear_expired_then_get_hits (k : string) (now : datetime) (c : Cache)
  (x : CEntry) :
  well_formed c ->
  Z.abs (ttl c / 86400) <= max_timedelta_days ->
  dict_lookup k (cache (fst (clear_expired now c))) = Some x ->
  get k now (fst (clear_expired now c)) =
  (fst (clear_expired now c), inr (Some (data x))).
Proof.
  intros Hwf Hr Hk.
  pose proof Hk as Hk'.
  rewrite (clear_expired_lookup_in_range k now c Hwf Hr) in Hk'.
  destruct (dict_lookup k (cache c)) as [y|]; [|discriminate].
  destruct (expired now (ttl c * 1000000) y) eqn:Ex; [discriminate|].
  injection Hk' as ->.
  assert (Httl : ttl (fst (clear_expired now c)) = ttl c).
  { unfold clear_expired. destruct (cache c); [reflexivity|].
    now destruct (timedelta_of_seconds (ttl c)). }
  unfold get. rewrite Hk, Httl, (timedelta_in_range _ Hr), Ex. reflexivity.
Qed.

Lemma existsb_patient_keys (patient_id k : string) (keys : list string) :
  existsb (fun key => String.eqb key k)
    (filter (fun key => PyStr.contains patient_id key) keys) =
  PyStr.contains patient_id k && existsb (fun key => String.eqb key k) keys.
Proof.
  induction keys as [|k0 keys IH]; cbn; [now rewrite andb_false_r|].
  destruct (String.eqb k0 k) eqn:E.
  - apply String.eqb_eq in E. subst k0.
    destruct (PyStr.contains patient_id k) eqn:C; cbn.
    + now rewrite String.eqb_refl.
    + exact IH.
  - destruct (PyStr.contains patient_id k0); cbn; [rewrite E|]; cbn;
      exact IH.
Qed.

(** X24. [clear_patient_cache] removes every key in which the patient id
    occurs as a substring, anywhere in the key, and leaves every other
    key with what it held. *)
Theorem clear_patient_cache_removes_matching_keys
  (patient_id k : string) (c : Cache) :
  ((exists a b : string, k = (a ++ patient_id ++ b)%string) ->
   dict_lookup k (cache (clear_patient_cache patient_id c)) = None) /\
  (~ (exists a b : string, k = (a ++ patient_id ++ b)%string) ->
   dict_lookup k (cache (clear_patient_cache patient_id c)) =
   dict_lookup k (cache c)).
Proof.
  unfold clear_patient_cache. cbn.
  rewrite dict_lookup_del_all, existsb_patient_keys.
  rewrite <- contains_spec. split; intros H.
  - rewrite H. cbn.
    destruct (existsb _ (map fst (cache c))) eqn:E; [reflexivity|].
    apply dict_lookup_None. intros Hin.
    assert (Ht : existsb (fun key => String.eqb key k) (map fst (cache c))
                 = true).
    { apply existsb_exists. exists k. split; [assumption|].
      apply String.eqb_refl. }
    congruence.
  - apply not_true_is_false in H. now rewrite H.
Qed.

(** X25. With the empty string as patient id, [clear_patient_cache]
    empties the whole cache: the empty string occurs in every key. *)
Theorem clear_patient_cache_empty_id_clears_all (c : Cache) :
  cache (clear_patient_cache "" c) = [].
Proof.
  unfold clear_patient_cache. cbn. apply dict_del_all_nil.
  intros k Hk. apply filter_In. split; [assumption|apply contains_empty].
Qed.

End CacheFacts.

(** ** The further properties, evaluated *)

Module MoreScenarioFacts.

Import Scenario.

Lemma commit_and_rollback_pop_the_top_frame_witness :
  let m :=
    o_tm (run [Begin t0; AddRollbackAction A (days_after 1);
               Begin (days_after 2);
               AddRollbackAction B_raising (days_after 3)] fresh []) in
  transaction_stack (commit (days_after 4) m) = [[A]] /\
  transaction_stack (o_tm (rollback (days_after 4) m [])) = [[A]].
Proof.
  intros m.
  exact (commit_and_rollback_pop_the_top_frame m [[A]] [B_raising]
           (days_after 4) [] eq_refl).
Defined.

Lemma run_invokes_only_registered_actions_witness :
  In A (pending fresh) \/
  In A (registered
          [Begin t0; AddRollbackAction A (days_after 1);
           Rollback (days_after 2)]).
Proof.
  exact (run_invokes_only_registered_actions
           [Begin t0; AddRollbackAction A (days_after 1);
            Rollback (days_after 2)]
           fresh [] A (or_introl eq_refl)).
Defined.

Lemma commit_discards_compensations_witness :
  let m :=
    o_tm (run [Begin t0; AddRollbackAction B (days_after 1);
               Begin (days_after 2);
               AddRollbackAction A (days_after 3)] fresh []) in
  o_invoked (run [Rollback (days_after 5)] (commit (days_after 4) m) []) = [B] /\
  (In B (List.concat [[B]]) \/ In B (registered [Rollback (days_after 5)])).
Proof.
  intros m. split; [reflexivity|].
  exact (commit_discards_compensations m [[B]] [A] (days_after 4)
           [Rollback (days_after 5)] [] B eq_refl (or_introl eq_refl)).
Defined.

Lemma rollback_composes_compensations_witness :
  let m :=
    register [(A, days_after 1); (probe, days_after 2)]
      (begin_transaction t0 fresh) in
  o_raised (rollback (days_after 3) m ["start"%string]) = None /\
  o_world (rollback (days_after 3) m ["start"%string]) =
  ["start"; "closed"; "A"]%string.
Proof.
  intros m.
  destruct (rollback_composes_compensations m [] [A; probe] (days_after 3)
              ["start"%string] eq_refl (conj eq_refl (conj eq_refl I)))
    as (Hr & Hw & _).
  split; [exact Hr | exact Hw].
Defined.

Lemma closing_calls_are_inert_on_an_empty_stack_witness :
  let m := o_tm (run [Begin t0; Commit (days_after 1)] fresh []) in
  transaction_log m = [mk_entry t0 [] committed (Some (days_after 1))] /\
  run [Commit (days_after 2); Rollback (days_after 3);
       AddRollbackAction A (days_after 4)] m [] =
  returns m [].
Proof.
  intros m. split; [reflexivity|].
  exact (closing_calls_are_inert_on_an_empty_stack
           [Commit (days_after 2); Rollback (days_after 3);
            AddRollbackAction A (days_after 4)] m [] eq_refl eq_refl).
Defined.

Lemma recording_appends_in_call_order_witness :
  run [AddRollbackAction A (days_after 1);
       AddAction "create" [("id", "7")]%string (days_after 2);
       AddRollbackAction B (days_after 3)]
    (begin_transaction t0 fresh) [] =
  returns
    {| transaction_stack := [[A; B]];
       rollback_actions := [];
       transaction_log :=
         [mk_entry t0
            [mk_audit "rollback_action" None (days_after 1);
             mk_audit "create" (Some [("id", "7")]%string) (days_after 2);
             mk_audit "rollback_action" None (days_after 3)]
            in_progress None] |}
    [].
Proof.
  exact (recording_appends_in_call_order
           [AddRollbackAction A (days_after 1);
            AddAction "create" [("id", "7")]%string (days_after 2);
            AddRollbackAction B (days_after 3)]
           (begin_transaction t0 fresh) [] [] []
           [] (mk_entry t0 [] in_progress None) eq_refl eq_refl eq_refl).
Defined.

Lemma transaction_restores_the_stack_witness :
  let m := begin_transaction t0 fresh in
  transaction_stack
    (o_tm (transaction (days_after 1) (days_after 3)
             (failing_work B_raising "disk full") m [])) = [[]] /\
  transaction_stack
    (o_tm (transaction (days_after 1) (days_after 3)
             (interrupted_work B) m [])) = [[]; [B]].
Proof.
  intros m. split.
  - apply (proj1
             (transaction_restores_the_stack (days_after 1) (days_after 3)
                (failing_work B_raising "disk full") m [] [B_raising]
                eq_refl)).
    intros e [= <-]. reflexivity.
  - exact (proj2
             (transaction_restores_the_stack (days_after 1) (days_after 3)
                (interrupted_work B) m [] [B] eq_refl)
             (mk_exn KeyboardInterruptT "") eq_refl eq_refl).
Defined.

Lemma transaction_commits_a_recording_body_witness :
  transaction t0 (days_after 2)
    (run [AddRollbackAction A (days_after 1)]) fresh [] =
  returns
    {| transaction_stack := [];
       rollback_actions := [];
       transaction_log :=
         [mk_entry t0 [mk_audit "rollback_action" None (days_after 1)]
            committed (Some (days_after 2))] |}
    [].
Proof.
  exact (transaction_commits_a_recording_body t0 (days_after 2)
           [AddRollbackAction A (days_after 1)] fresh [] eq_refl).
Defined.

Lemma nested_transaction_failure_nests_the_message_witness :
  let out :=
    transaction t0 (days_after 4)
      (transaction (days_after 1) (days_after 3)
         (failing_work A "disk full")) fresh [] in
  o_raised out =
  Some (TransactionError "Transaction failed: Transaction failed: disk full")
  /\
  transaction_stack (o_tm out) = [] /\
  o_invoked out = [A].
Proof.
  intros out.
  pose proof (nested_transaction_failure_nests_the_message
                t0 (days_after 1) (days_after 3) (days_after 4)
                (failing_work A "disk full") fresh []
                (mk_exn ExceptionT "disk full") [] [A]
                eq_refl eq_refl eq_refl (conj eq_refl I) I) as H.
  split; [exact (f_equal o_raised H)|].
  split; [exact (f_equal (fun o => transaction_stack (o_tm o)) H)|].
  exact (f_equal o_invoked H).
Defined.

Lemma clear_logs_monotone_witness :
  let m : TM := begin_transaction (days_after (-10)) fresh in
  let e : LogEntry := mk_entry (days_after (-10)) [] in_progress None in
  In e (transaction_log (fst (clear_logs 30 t0 m))) /\
  In e (transaction_log (fst (clear_logs 60 t0 m))).
Proof.
  intros m e.
  assert (H30 : In e (transaction_log (fst (clear_logs 30 t0 m))))
    by (left; reflexivity).
  split; [exact H30|].
  apply (clear_logs_monotone 30 60 t0 m e); try exact H30; vm_compute;
    solve [reflexivity | intros H; discriminate H].
Defined.

Lemma set_existing_key_keeps_the_keys_witness :
  let c := set "b" 2%nat (days_after 1) (set "a" 1%nat t0 (cache_init 3600)) in
  map fst (cache (set "a" 3%nat (days_after 2) c)) = ["a"; "b"]%string.
Proof.
  intros c.
  apply (set_existing_key_keeps_the_keys "a" 3%nat (days_after 2) c).
  intros H. discriminate H.
Defined.

Lemma set_then_get_within_ttl_witness :
  let c := cache_init 3600 in
  get "a" (t0 + 3600 * 1000000) (set "a" 1%nat t0 c) =
  (set "a" 1%nat t0 c, inr (Some 1%nat)).
Proof.
  intros c.
  apply (set_then_get_within_ttl "a" 1%nat t0 (t0 + 3600 * 1000000) c);
    vm_compute; intros H; discriminate H.
Defined.

Lemma set_then_get_after_ttl_witness :
  let c := set "b" 2%nat t0 (cache_init 3600) in
  let after := get "a" (t0 + 3600 * 1000000 + 1) (set "a" 1%nat t0 c) in
  snd after = inr None /\
  dict_lookup "a" (cache (fst after)) = None /\
  (forall k : string,
     k <> "a"%string ->
     dict_lookup k (cache (fst after)) = dict_lookup k (cache c)).
Proof.
  intros c.
  apply (set_then_get_after_ttl "a" 1%nat t0 (t0 + 3600 * 1000000 + 1) c);
    vm_compute; solve [reflexivity | intros H; discriminate H].
Defined.

Lemma get_leaves_other_keys_witness :
  let c := set "b" 2%nat t0 (set "a" 1%nat t0 (cache_init 3600)) in
  dict_lookup "b" (cache (fst (get "a" (days_after 1) c))) =
  dict_lookup "b" (cache c).
Proof.
  intros c. apply (get_leaves_other_keys "b" "a" (days_after 1) c).
  intros H. discriminate H.
Defined.

Lemma clear_expired_removes_the_expired_witness :
  let c :=
    set "new" 2%nat (days_after 1) (set "old" 1%nat t0 (cache_init 3600)) in
  snd (clear_expired (days_after 1) c) = None /\
  dict_lookup "old" (cache (fst (clear_expired (days_after 1) c))) = None.
Proof.
  intros c.
  apply (clear_expired_removes_the_expired "old" (days_after 1) c).
  - unfold well_formed. cbn. constructor.
    + intros [H|[]]. discriminate H.
    + constructor; [intros []|constructor].
  - vm_compute. intros H. discriminate H.
Defined.

Lemma clear_expired_then_get_hits_witness :
  let c :=
    set "new" 2%nat (days_after 1) (set "old" 1%nat t0 (cache_init 3600)) in
  get "new" (days_after 1) (fst (clear_expired (days_after 1) c)) =
  (fst (clear_expired (days_after 1) c), inr (Some 2%nat)).
Proof.
  intros c.
  apply (clear_expired_then_get_hits "new" (days_after 1) c
           (mk_cache_entry 2%nat (days_after 1))).
  - unfold well_formed. cbn. constructor.
    + intros [H|[]]. discriminate H.
    + constructor; [intros []|constructor].
  - vm_compute. intros H. discriminate H.
  - reflexivity.
Defined.

End MoreScenarioFacts.
